(** * BetterBST and MinecraftChecklist: a shallow embedding

    The development follows [betterbst.py] (the balanced builder and the
    pruned range filter) and [minecraft_checklist.py] (the checklist that
    indexes blocks by their value-to-hardness ratio).

    The generic binary search tree ([data_structures]), the array list and
    the merge sort ([algorithms.mergesort]) are imported by those files but
    are not part of the sources at hand: they are modelled from the
    specification, each under a comment saying so. *)

From Equations Require Import Equations.
From Stdlib Require Import ZArith List Bool Lia Arith.
From Stdlib Require Import Sorting.Sorted Sorting.Permutation.
From Stdlib Require Import Strings.String QArith.
Import ListNotations.
Open Scope Z_scope.

(** ** Keys

    [K = TypeVar('K')]: the tree only ever compares keys with [<], [>] and
    [==].  One boolean test [ltb] stands for [<]; [a > b] is [ltb b a] and
    [a == b] holds when neither is below the other.  The laws are those of a
    strict weak order, which is what Python's integers and finite floats
    (where [-0.0 == 0.0]) provide. *)

Class KeyOrder (K : Type) := {
  ltb : K -> K -> bool;
  ltb_irrefl : forall x, ltb x x = false;
  ltb_trans : forall x y z, ltb x y = true -> ltb y z = true -> ltb x z = true;
  ltb_cotrans : forall x y z, ltb x y = true -> ltb x z = true \/ ltb z y = true
}.

Definition gtb {K} `{KeyOrder K} (a b : K) : bool := ltb b a.
Definition eqk {K} `{KeyOrder K} (a b : K) : bool := negb (ltb a b) && negb (ltb b a).

#[export] Program Instance Z_KeyOrder : KeyOrder Z := {| ltb := Z.ltb |}.
Next Obligation. apply Z.ltb_irrefl. Qed.
Next Obligation. rewrite Z.ltb_lt in *. lia. Qed.
Next Obligation. rewrite !Z.ltb_lt in *. lia. Qed.

(** ** The ordered-map substrate *)

Section Substrate.
Context {K I : Type} `{KeyOrder K}.

(** Modelled from the spec: [TreeNode] of the missing [data_structures],
    "one Entry's key/item" and "an optional left child and an optional
    right child"; [Nil] is Python's [None]. *)
Inductive TreeNode : Type :=
| Nil
| Node (key : K) (item : I) (left_ right_ : TreeNode).

(** Modelled from the spec: the missing [BinarySearchTree], which "owns a
    single optional root Node; size is tracked incrementally". *)
Record BinarySearchTree : Type := mkBST { root : TreeNode; length : nat }.

(** Modelled from the spec: [BinarySearchTree.__init__], "a Tree is
    created empty". *)
Definition empty_tree : BinarySearchTree := mkBST Nil 0.

(** Modelled from the spec: the substrate's lookup ([__getitem__] of the
    missing [BinarySearchTree]); [None] is the lookup miss (a [KeyError]). *)
Fixpoint get_aux (current : TreeNode) (key : K) : option I :=
  match current with
  | Nil => None
  | Node k i l r =>
      if eqk key k then Some i
      else if ltb key k then get_aux l key
      else get_aux r key
  end.

Definition getitem (self : BinarySearchTree) (key : K) : option I :=
  get_aux (root self) key.

(** Modelled from the spec: [key in tree] of the missing
    [BinarySearchTree]. *)
Definition contains (self : BinarySearchTree) (key : K) : bool :=
  match getitem self key with Some _ => true | None => false end.

(** Modelled from the spec: the substrate's insertion ([__setitem__] of
    the missing [BinarySearchTree]): a new leaf for a new key, and
    "inserting an existing key overwrites it". *)
Fixpoint insert_aux (current : TreeNode) (key : K) (item : I) : TreeNode :=
  match current with
  | Nil => Node key item Nil Nil
  | Node k i l r =>
      if ltb key k then Node k i (insert_aux l key item) r
      else if gtb key k then Node k i l (insert_aux r key item)
      else Node k item l r
  end.

Definition setitem (key : K) (item : I) (self : BinarySearchTree)
  : BinarySearchTree :=
  mkBST (insert_aux (root self) key item)
        (if contains self key then length self else S (length self)).

(** Modelled from the spec: in-order iteration of the missing
    [BinarySearchTree], "ascending (key, value) pairs". *)
Fixpoint inorder_aux (current : TreeNode) : list (K * I) :=
  match current with
  | Nil => []
  | Node k i l r => inorder_aux l ++ (k, i) :: inorder_aux r
  end.

Definition inorder (self : BinarySearchTree) : list (K * I) :=
  inorder_aux (root self).

Fixpoint height_aux (current : TreeNode) : nat :=
  match current with
  | Nil => 0
  | Node _ _ l r => S (Nat.max (height_aux l) (height_aux r))
  end.

(** The height of a tree, counted in levels: the empty tree has height 0
    and a single node height 1. *)
Definition height (self : BinarySearchTree) : nat := height_aux (root self).

Fixpoint size_aux (current : TreeNode) : nat :=
  match current with
  | Nil => 0
  | Node _ _ l r => S (size_aux l + size_aux r)
  end.

(** The ordering invariant of the data model: at every node the keys of
    the left subtree are below the node's key and the keys of the right
    subtree are above it. *)
Fixpoint bst_ordered (current : TreeNode) : Prop :=
  match current with
  | Nil => True
  | Node k _ l r =>
      Forall (fun e => ltb (fst e) k = true) (inorder_aux l) /\
      Forall (fun e => ltb k (fst e) = true) (inorder_aux r) /\
      bst_ordered l /\ bst_ordered r
  end.

(** At every node the two subtrees differ in size by at most one. *)
Fixpoint size_balanced (current : TreeNode) : Prop :=
  match current with
  | Nil => True
  | Node _ _ l r =>
      (size_aux l <= size_aux r <= S (size_aux l))%nat /\
      size_balanced l /\ size_balanced r
  end.

(** Modelled from the spec: [ArrayList.__getitem__] of the missing
    [data_structures]; an index outside the list is an error ([None]). *)
Definition elements_get {A} (elements : list A) (i : Z) : option A :=
  if i <? 0 then None else nth_error elements (Z.to_nat i).

(** Modelled from the spec: the missing [algorithms.mergesort], "a stable
    comparison sort over a sequence, parameterized by a key-extraction
    function": [merge] takes from the left run unless the head of the
    right run is strictly smaller. *)
Fixpoint merge {A} (key : A -> K) (l1 l2 : list A) {struct l1} : list A :=
  let fix merge_aux (l2 : list A) : list A :=
    match l1, l2 with
    | [], _ => l2
    | _, [] => l1
    | a1 :: l1', a2 :: l2' =>
        if ltb (key a2) (key a1) then a2 :: merge_aux l2'
        else a1 :: merge key l1' l2
    end in
  merge_aux l2.

Equations? mergesort {A} (l : list A) (key : A -> K) : list A
  by wf (List.length l) lt :=
  mergesort l key with le_lt_dec (List.length l) 1 => {
    | left _ => l
    | right _ =>
        let mid := (List.length l / 2)%nat in
        merge key (mergesort (firstn mid l) key) (mergesort (skipn mid l) key) }.
Proof.
  all: subst mid;
    assert (0 < List.length l / 2 < List.length l)%nat
      by (split; [apply Nat.div_str_pos | apply Nat.div_lt]; lia).
  - rewrite length_firstn. lia.
  - rewrite length_skipn. lia.
Qed.

End Substrate.

Arguments TreeNode : clear implicits.
Arguments BinarySearchTree : clear implicits.

(** ** BetterBST *)

Section BetterBST.
Context {K I : Type} `{KeyOrder K}.

Section Builder.
(** The builder only ever touches the tree through [self[key] = item];
    [State] and [set] stand for the object and that assignment, so that
    the same recursion can also be run on a log of the assignments. *)
Context {State : Type}.
Variable set : K -> I -> State -> State.

(** [BetterBST._build_subtree_aux]; [None] is an index error raised by
    [elements[mid]]. *)
Equations? _build_subtree_aux (elements : list (K * I)) (start end_ : Z)
  (self : State) : option State by wf (Z.to_nat (end_ - start + 1)) lt :=
  _build_subtree_aux elements start end_ self with Z_gt_le_dec start end_ => {
    | left _ => Some self
    | right _ =>
        let mid := (start + end_) / 2 in
        match elements_get elements mid with
        | None => None
        | Some (key, item) =>
            match _build_subtree_aux elements start (mid - 1)
                    (set key item self) with
            | None => None
            | Some self1 => _build_subtree_aux elements (mid + 1) end_ self1
            end
        end }.
Proof.
  all: subst mid;
    assert (start <= (start + end_) / 2 <= end_)
      by (split; [apply Z.div_le_lower_bound | apply Z.div_le_upper_bound]; lia);
    lia.
Qed.

(** The same recursion with the two recursive calls swapped: the right
    sub-range [mid+1, end] is built before the left one. *)
Equations? _build_subtree_aux_swapped (elements : list (K * I))
  (start end_ : Z) (self : State) : option State
  by wf (Z.to_nat (end_ - start + 1)) lt :=
  _build_subtree_aux_swapped elements start end_ self
    with Z_gt_le_dec start end_ => {
    | left _ => Some self
    | right _ =>
        let mid := (start + end_) / 2 in
        match elements_get elements mid with
        | None => None
        | Some (key, item) =>
            match _build_subtree_aux_swapped elements (mid + 1) end_
                    (set key item self) with
            | None => None
            | Some self1 =>
                _build_subtree_aux_swapped elements start (mid - 1) self1
            end
        end }.
Proof.
  all: subst mid;
    assert (start <= (start + end_) / 2 <= end_)
      by (split; [apply Z.div_le_lower_bound | apply Z.div_le_upper_bound]; lia);
    lia.
Qed.

(** [BetterBST.__build_balanced_tree]. *)
Definition __build_balanced_tree (elements : list (K * I)) (self : State)
  : option State :=
  _build_subtree_aux elements 0 (Z.of_nat (List.length elements) - 1) self.

Definition __build_balanced_tree_swapped (elements : list (K * I))
  (self : State) : option State :=
  _build_subtree_aux_swapped elements 0
    (Z.of_nat (List.length elements) - 1) self.
End Builder.

(** [BetterBST.__sort_elements]: [mergesort(elements, lambda x: x[0])]. *)
Definition __sort_elements (elements : list (K * I)) : list (K * I) :=
  mergesort elements fst.

(** [BetterBST.__init__]. *)
Definition __init__ (elements : list (K * I)) : option (BinarySearchTree K I) :=
  let new_elements := __sort_elements elements in
  __build_balanced_tree setitem new_elements empty_tree.

(** The keys passed to [self[key] = item], in the order of the calls. *)
Definition insertion_order (elements : list (K * I)) : option (list K) :=
  __build_balanced_tree (fun key _ log => log ++ [key])
    (__sort_elements elements) [].

(** [BetterBST._filter_traverse_aux]: [result] is the array list the
    method appends to, passed in and handed back. *)
Fixpoint _filter_traverse_aux (current : TreeNode K I)
  (filter_func1 filter_func2 : K -> bool) (result : list (K * I))
  : list (K * I) :=
  match current with
  | Nil => result
  | Node key item left_ right_ =>
      let result :=
        if filter_func1 key
        then _filter_traverse_aux left_ filter_func1 filter_func2 result
        else result in
      let result :=
        if filter_func1 key && filter_func2 key
        then result ++ [(key, item)]
        else result in
      if filter_func2 key
      then _filter_traverse_aux right_ filter_func1 filter_func2 result
      else result
  end.

(** [BetterBST.filter_keys]. *)
Definition filter_keys (self : BinarySearchTree K I)
  (filter_func1 filter_func2 : K -> bool) : list (K * I) :=
  let result := [] in
  _filter_traverse_aux (root self) filter_func1 filter_func2 result.

End BetterBST.


(** ** MinecraftBlock and MinecraftChecklist *)

(** [MinecraftItem]. *)
Record MinecraftItem : Type := mkItem {
  item_name : string;
  item_description : string;
  value : Z
}.

(** [MinecraftBlock]. *)
Record MinecraftBlock : Type := mkBlock {
  name : string;
  description : string;
  hardness : Z;
  item : MinecraftItem
}.

(** [MinecraftBlock.__eq__]: blocks are compared by name. *)
Definition block_eq (self other : MinecraftBlock) : bool :=
  String.eqb (name self) (name other).

(** Sequencing of calls that may raise: [None] is a raised exception. *)
Definition bind {A B} (m : option A) (k : A -> option B) : option B :=
  match m with Some a => k a | None => None end.

Notation "x <- m ;; k" := (bind m (fun x => k))
  (at level 61, m at next level, right associativity).

Fixpoint mapM {A B} (f : A -> option B) (l : list A) : option (list B) :=
  match l with
  | [] => Some []
  | a :: l' => b <- f a ;; bs <- mapM f l' ;; Some (b :: bs)
  end.

Section Checklist.
Context {K : Type} `{KeyOrder K}.

(** Python's true division of two integers into the key type (a float);
    [None] is the exception it raises, on a zero divisor or on overflow. *)
Variable truediv : Z -> Z -> option K.

(** [MinecraftBlock.ratio]: [self.item.value / self.hardness]. *)
Definition ratio (self : MinecraftBlock) : option K :=
  truediv (value (item self)) (hardness self).

(** The built-in [min] and [max] of two arguments: the first argument is
    kept unless the second is strictly smaller (strictly larger). *)
Definition py_min (a b : K) : K := if ltb b a then b else a.
Definition py_max (a b : K) : K := if gtb b a then b else a.

(** [MinecraftChecklist]: its one attribute is the tree [checklist]. *)
Record MinecraftChecklist : Type := mkChecklist {
  checklist : BinarySearchTree K MinecraftBlock
}.

(** [MinecraftChecklist.__init__]. *)
Definition checklist_init (blocks : list MinecraftBlock)
  : option MinecraftChecklist :=
  elements <- mapM (fun block => r <- ratio block ;; Some (r, block)) blocks ;;
  tree <- __init__ elements ;;
  Some (mkChecklist tree).

(** [MinecraftChecklist.__contains__]. *)
Definition checklist_contains (self : MinecraftChecklist)
  (item : MinecraftBlock) : option bool :=
  key <- ratio item ;;
  Some (match getitem (checklist self) key with
        | Some found => block_eq found item
        | None => false
        end).

(** [MinecraftChecklist.__len__]. *)
Definition checklist_len (self : MinecraftChecklist) : nat :=
  length (checklist self).

(** [MinecraftChecklist.add_block]. *)
Definition add_block (self : MinecraftChecklist) (block : MinecraftBlock)
  : option MinecraftChecklist :=
  key <- ratio block ;;
  Some (if negb (contains (checklist self) key)
        then mkChecklist (setitem key block (checklist self))
        else self).

(** [MinecraftChecklist.get_sorted_blocks]. *)
Definition get_sorted_blocks (self : MinecraftChecklist)
  : list MinecraftBlock :=
  map snd (inorder (checklist self)).

(** [MinecraftChecklist.get_optimal_blocks]. *)
Definition get_optimal_blocks (self : MinecraftChecklist)
  (block1 block2 : MinecraftBlock) : option (list MinecraftBlock) :=
  r1 <- ratio block1 ;;
  r2 <- ratio block2 ;;
  let lower := py_min r1 r2 in
  let upper := py_max r1 r2 in
  let filter_func1 := fun k => gtb k lower in
  let filter_func2 := fun k => ltb k upper in
  let filtered := filter_keys (checklist self) filter_func1 filter_func2 in
  Some (map snd filtered).

End Checklist.

Arguments MinecraftChecklist : clear implicits.

(** ** Instances used in the examples *)

(** Rational keys, compared as numbers: as with floats, two keys can be
    equal without being identical. *)
Definition Qltb (x y : Q) : bool := negb (Qle_bool y x).

Lemma Qltb_lt (x y : Q) : Qltb x y = true <-> (x < y)%Q.
Proof.
  unfold Qltb. rewrite negb_true_iff, <- not_true_iff_false, Qle_bool_iff.
  split; [apply Qnot_le_lt | apply Qlt_not_le].
Qed.

#[export] Program Instance Q_KeyOrder : KeyOrder Q := {| ltb := Qltb |}.
Next Obligation.
  apply not_true_iff_false. rewrite Qltb_lt. apply Qlt_irrefl.
Qed.
Next Obligation.
  rewrite Qltb_lt in *. eapply Qlt_trans; eassumption.
Qed.
Next Obligation.
  rewrite !Qltb_lt in *.
  destruct (Qlt_le_dec x z) as [Hlt | Hle]; [now left | right].
  eapply Qle_lt_trans; eassumption.
Qed.

(** The exact quotient of two integers, undefined on a zero divisor: an
    instance for the examples, which use quotients that floats hold
    exactly.  It is not Python's division (it neither rounds nor
    overflows); the theorems are stated for any [truediv]. *)
Definition Q_truediv (a b : Z) : option Q :=
  if b =? 0 then None else Some (inject_Z a / inject_Z b)%Q.

(** ** Trees with a hole, and the tree of medians

    These are used to state what the builder's insertions do to a partly
    built tree. *)

Section Contexts.
Context {K I : Type} `{KeyOrder K}.

(** One step on the path from a hole up to the root: the hole is the left
    child of a node (whose right subtree is [r]) or its right child. *)
Inductive frame : Type :=
| InLeft (k : K) (i : I) (r : TreeNode K I)
| InRight (k : K) (i : I) (l : TreeNode K I).

(** [plug c t] puts [t] in the hole of the context [c] (innermost frame
    first). *)
Fixpoint plug (c : list frame) (t : TreeNode K I) : TreeNode K I :=
  match c with
  | [] => t
  | InLeft k i r :: c' => plug c' (Node k i t r)
  | InRight k i l :: c' => plug c' (Node k i l t)
  end.

(** A key [x] is routed to the hole of [c] when the search for it turns
    the way of each frame. *)
Definition routed (x : K) (f : frame) : Prop :=
  match f with
  | InLeft k _ _ => ltb x k = true
  | InRight k _ _ => ltb k x = true
  end.

(** Every key of the range [s .. e] of [elements] is routed to the hole
    of [c]. *)
Definition range_routed (elements : list (K * I)) (s e : Z)
  (c : list frame) : Prop :=
  forall i x, s <= i <= e -> elements_get elements i = Some x ->
              Forall (routed (fst x)) c.

(** The tree whose root is the entry at the floor median of
    [start .. end_] and whose subtrees are the trees of the two halves. *)
Equations? median_tree (elements : list (K * I)) (start end_ : Z)
  : TreeNode K I by wf (Z.to_nat (end_ - start + 1)) lt :=
  median_tree elements start end_ with Z_gt_le_dec start end_ => {
    | left _ => Nil
    | right _ =>
        let mid := (start + end_) / 2 in
        match elements_get elements mid with
        | None => Nil
        | Some (key, item) =>
            Node key item (median_tree elements start (mid - 1))
                          (median_tree elements (mid + 1) end_)
        end }.
Proof.
  all: subst mid;
    assert (start <= (start + end_) / 2 <= end_)
      by (split; [apply Z.div_le_lower_bound | apply Z.div_le_upper_bound]; lia);
    lia.
Qed.

(** [subseq l1 l2]: [l1] is [l2] with some entries left out. *)
Inductive subseq {A} : list A -> list A -> Prop :=
| subseq_nil : subseq [] []
| subseq_skip x l1 l2 : subseq l1 l2 -> subseq l1 (x :: l2)
| subseq_keep x l1 l2 : subseq l1 l2 -> subseq (x :: l1) (x :: l2).

(** Entries compared by key. *)
Definition key_lt (a b : K * I) : Prop := ltb (fst a) (fst b) = true.
Definition key_le (a b : K * I) : Prop := ltb (fst b) (fst a) = false.

(** No two entries of the list have equal keys. *)
Definition distinct_keys (elements : list (K * I)) : Prop :=
  ForallOrdPairs (fun a b => eqk (fst a) (fst b) = false) elements.

(** The contract of the two filter predicates: once [lower_pred] holds it
    holds for every larger key; once [upper_pred] holds it holds for every
    smaller key. *)
Definition monotone_lower (lower_pred : K -> bool) : Prop :=
  forall x y, ltb x y = true -> lower_pred x = true -> lower_pred y = true.
Definition monotone_upper (upper_pred : K -> bool) : Prop :=
  forall x y, ltb x y = true -> upper_pred y = true -> upper_pred x = true.

(** The brute-force filter: keep the entries on which both predicates
    hold. *)
Definition both (lower_pred upper_pred : K -> bool) (e : K * I) : bool :=
  lower_pred (fst e) && upper_pred (fst e).

End Contexts.

Arguments frame : clear implicits.

(** ** Concrete inputs *)

(** The entries of the specification's scenario. *)
Definition scenario : list (Z * string) :=
  [(5, "e"); (1, "a"); (3, "c"); (2, "b"); (4, "d")]%string.

(** Three entries, in order, that share one key: an input that the data
    model does not allow. *)
Definition repeated_key : list (Z * string) :=
  [(1, "a"); (1, "b"); (1, "c")]%string.

(** The scenario's entries in ascending order. *)
Definition scenario_sorted : list (Z * string) :=
  [(1, "a"); (2, "b"); (3, "c"); (4, "d"); (5, "e")]%string.

(** A tree of three entries, and a lower predicate that is not monotone:
    it fails at key 2 only. *)
Definition three_entries : BinarySearchTree Z string :=
  mkBST (Node 2 "b" (Node 1 "a" Nil Nil) (Node 3 "c" Nil Nil))%string 3.
Definition not_two (k : Z) : bool := negb (k =? 2).
Definition always (k : Z) : bool := true.

Definition iron : MinecraftBlock :=
  mkBlock "iron" "an ore" 1 (mkItem "ingot" "iron ingot" 3).
Definition coal : MinecraftBlock :=
  mkBlock "coal" "a fuel" 4 (mkItem "lump" "lump of coal" 4).
Definition diamond : MinecraftBlock :=
  mkBlock "diamond" "a gem" 2 (mkItem "gem" "cut diamond" 10).
Definition emerald : MinecraftBlock :=
  mkBlock "emerald" "a gem" 1 (mkItem "shard" "emerald shard" 5).

(** The checklist of iron, coal and diamond, with ratios 3, 1 and 5. *)
Definition three_blocks : MinecraftChecklist Q :=
  mkChecklist
    (mkBST (Node (3 # 1) iron (Node (4 # 4) coal Nil Nil)
                              (Node (10 # 2) diamond Nil Nil)) 3)%Q.

(** ** The miner and the game

    [miner.py] and [not_minecraft.py].  The linked list, the array, the
    max-heap and the random generator of [data_structures] and [random_gen]
    are not part of the sources at hand: lists stand for the first two, and
    the last two are parameters of the model. *)

(** [Miner]: [inventory] is the linked list of mined items, oldest first. *)
Record Miner : Type := mkMiner {
  miner_name : string;
  inventory : list MinecraftItem
}.

(** [Miner.__init__]. *)
Definition Miner_init (name : string) : Miner := mkMiner name [].

(** [Miner.mine]: [self.inventory.append(block.item)]. *)
Definition mine (self : Miner) (block : MinecraftBlock) : Miner :=
  mkMiner (miner_name self) (inventory self ++ [item block]).

(** [Miner.clear_inventory]: the old inventory is returned and the miner
    is left with a new, empty one. *)
Definition clear_inventory (self : Miner) : list MinecraftItem * Miner :=
  let old_inventory := inventory self in
  (old_inventory, mkMiner (miner_name self) []).

(** [block in array]: some entry of the array is [==] to the block. *)
Definition block_in (block : MinecraftBlock) (array : list MinecraftBlock)
  : bool :=
  existsb (fun other => block_eq other block) array.

(** The sum of the hardness of some blocks. *)
Definition total_hardness (blocks : list MinecraftBlock) : Z :=
  fold_right (fun block acc => hardness block + acc) 0 blocks.

Section RaisingSort.
Context {K A : Type} `{KeyOrder K}.

(** Modelled from the spec: the missing [algorithms.mergesort] again, for
    a key function that may raise: the error of a key that is evaluated is
    the error of the sort, and a list of fewer than two entries is returned
    without evaluating any key. *)
Fixpoint merge_raise (key : A -> option K) (l1 l2 : list A) {struct l1}
  : option (list A) :=
  let fix merge_aux (l2 : list A) : option (list A) :=
    match l1, l2 with
    | [], _ => Some l2
    | _, [] => Some l1
    | a1 :: l1', a2 :: l2' =>
        k2 <- key a2 ;;
        k1 <- key a1 ;;
        if ltb k2 k1
        then rest <- merge_aux l2' ;; Some (a2 :: rest)
        else rest <- merge_raise key l1' l2 ;; Some (a1 :: rest)
    end in
  merge_aux l2.

Equations? mergesort_raise (l : list A) (key : A -> option K)
  : option (list A) by wf (List.length l) lt :=
  mergesort_raise l key with le_lt_dec (List.length l) 1 => {
    | left _ => Some l
    | right _ =>
        let mid := (List.length l / 2)%nat in
        match mergesort_raise (firstn mid l) key with
        | None => None
        | Some l1 =>
            match mergesort_raise (skipn mid l) key with
            | None => None
            | Some l2 => merge_raise key l1 l2
            end
        end }.
Proof.
  all: subst mid;
    assert (0 < List.length l / 2 < List.length l)%nat
      by (split; [apply Nat.div_str_pos | apply Nat.div_lt]; lia).
  - rewrite length_firstn. lia.
  - rewrite length_skipn. lia.
Qed.

End RaisingSort.

Section TreeInvariant.
Context {K I : Type} `{KeyOrder K}.

(** A tree is well formed when it has the ordering invariant and its
    recorded size is its number of nodes. *)
Definition tree_wf (self : BinarySearchTree K I) : Prop :=
  bst_ordered (root self) /\ length self = size_aux (root self).

(** The pre-order traversal of a tree: a node before its subtrees. *)
Fixpoint preorder_aux (current : TreeNode K I) : list (K * I) :=
  match current with
  | Nil => []
  | Node k i l r => (k, i) :: preorder_aux l ++ preorder_aux r
  end.

(** The assignments [self[key] = item] for a list of entries, in order. *)
Definition assign_all {State} (set : K -> I -> State -> State)
  (entries : list (K * I)) (self : State) : State :=
  fold_left (fun self e => set (fst e) (snd e) self) entries self.

End TreeInvariant.

Section NotMinecraft.
Context {K : Type} `{KeyOrder K}.

(** Python's true division of two integers and the unary minus of the key
    type. *)
Variable truediv : Z -> Z -> option K.
Variable neg : K -> K.

(** The missing [CaveSystem]. *)
Context {CaveSystem : Type}.

(** [RandomGen.random_shuffle], which rearranges the list it is given. *)
Variable random_shuffle : list MinecraftBlock -> list MinecraftBlock.

(** [MaxHeap]: the blocks in the order in which [get_max] hands them out
    after [MaxHeap.heapify(blocks, len(blocks))]; [None] when a comparison
    of two blocks raises. *)
Variable heap_order : list MinecraftBlock -> option (list MinecraftBlock).

(** [NotMinecraft]. *)
Record NotMinecraft : Type := mkGame {
  miner : Miner;
  cave_system : CaveSystem;
  game_checklist : MinecraftChecklist K
}.

(** [NotMinecraft.__init__]. *)
Definition game_init (cave_system : CaveSystem)
  (checklist : MinecraftChecklist K) : NotMinecraft :=
  mkGame (Miner_init "Steve") cave_system checklist.

(** The game once the miner holds the items of some more blocks, all
    else as it was. *)
Definition mined_more (self : NotMinecraft) (blocks : list MinecraftBlock)
  : NotMinecraft :=
  mkGame (mkMiner (miner_name (miner self))
                  (inventory (miner self) ++ map item blocks))
         (cave_system self) (game_checklist self).

(** [NotMinecraft.objective_mining_filter]. *)
Definition objective_mining_filter (self : NotMinecraft)
  (blocks : list MinecraftBlock) (block1 block2 : MinecraftBlock)
  : option (list MinecraftBlock) :=
  optimal_blocks <- get_optimal_blocks truediv (game_checklist self)
                      block1 block2 ;;
  Some (filter (fun block => block_in block optimal_blocks) blocks).

(** [NotMinecraft.objective_mining]: the blocks are sorted by
    [-x.ratio()] and mined in that order. *)
Definition objective_mining (self : NotMinecraft)
  (blocks : list MinecraftBlock) : option NotMinecraft :=
  sorted_blocks <- mergesort_raise blocks
                     (fun x => r <- ratio truediv x ;; Some (neg r)) ;;
  Some (mkGame (fold_left mine sorted_blocks (miner self))
               (cave_system self) (game_checklist self)).

(** [NotMinecraft.chicken_jockey_attack]: the list after the shuffle. *)
Definition chicken_jockey_attack (blocks : list MinecraftBlock)
  : list MinecraftBlock :=
  random_shuffle blocks.

(** [NotMinecraft.objective_mining_summary]. *)
Definition objective_mining_summary (self : NotMinecraft)
  (blocks : list MinecraftBlock) (block1 block2 : MinecraftBlock)
  : option NotMinecraft :=
  filtered_blocks <- objective_mining_filter self blocks block1 block2 ;;
  let filtered_blocks := chicken_jockey_attack filtered_blocks in
  objective_mining self filtered_blocks.

(** The [while] loop of [profit_mining]: [block_heap] is what the heap
    still holds, in the order [get_max] will hand it out. *)
Fixpoint profit_loop (block_heap : list MinecraftBlock) (remaining_time : Z)
  (miner : Miner) : Miner :=
  match block_heap with
  | [] => miner
  | block :: block_heap =>
      if remaining_time >? 0 then
        if hardness block <=? remaining_time then
          let miner := mine miner block in
          let remaining_time := remaining_time - hardness block in
          if remaining_time =? 0 then miner
          else profit_loop block_heap remaining_time miner
        else profit_loop block_heap remaining_time miner
      else miner
  end.

(** [NotMinecraft.profit_mining]. *)
Definition profit_mining (self : NotMinecraft)
  (blocks : list MinecraftBlock) (time_in_seconds : Z)
  : option NotMinecraft :=
  block_heap <- heap_order blocks ;;
  let remaining_time := time_in_seconds in
  Some (mkGame (profit_loop block_heap remaining_time (miner self))
               (cave_system self) (game_checklist self)).

End NotMinecraft.

Arguments NotMinecraft : clear implicits.

(** ** The cave

    The cave system and its nodes ([cave_system], not part of the sources
    at hand) are objects that refer to one another, possibly in cycles:
    the nodes live in a store, and a reference to a node is its position
    in the store. *)

(** A node of the cave, with the three attributes that
    [dfs_explore_cave] reads. *)
Record CaveNode : Type := mkNode {
  node_name : string;
  node_blocks : list MinecraftBlock;
  neighbours : list nat
}.

(** The cave system: the store of its nodes and the reference
    [entrance]. *)
Record CaveSystem : Type := mkCave {
  cave_nodes : list CaveNode;
  entrance : nat
}.

(** [name in visited], for the table of the names visited so far. *)
Definition name_in (n : string) (visited : list string) : bool :=
  existsb (String.eqb n) visited.

(** The loop over the neighbours of [dfs_explore_cave], from the last
    neighbour to the first: [reversed] is what is left of the neighbours in
    that order; a neighbour whose name is not visited is pushed.  [None] is
    a reference to no node of the store. *)
Fixpoint push_unvisited (cave : list CaveNode) (visited : list string)
  (reversed : list nat) (stack : list nat) : option (list nat) :=
  match reversed with
  | [] => Some stack
  | neighbor :: reversed =>
      match nth_error cave neighbor with
      | None => None
      | Some node =>
          if negb (name_in (node_name node) visited)
          then push_unvisited cave visited reversed (neighbor :: stack)
          else push_unvisited cave visited reversed stack
      end
  end.

(** What bounds the number of turns of the [while] loop that are left:
    one and its number of neighbours for every node whose name is not
    visited, and one for every reference on the stack. *)
Definition unvisited_weight (cave : list CaveNode) (visited : list string)
  : nat :=
  fold_right (fun node acc =>
                if name_in (node_name node) visited then acc
                else S (List.length (neighbours node)) + acc)%nat 0%nat cave.

Definition dfs_measure (cave : list CaveNode) (visited : list string)
  (stack : list nat) : nat :=
  (unvisited_weight cave visited + List.length stack)%nat.

(** A value together with the fact that it is the value. *)
Definition inspect {A} (a : A) : {b : A | a = b} := exist _ a eq_refl.

Lemma push_unvisited_length cave visited reversed : forall stack stack',
  push_unvisited cave visited reversed stack = Some stack' ->
  (List.length stack' <= List.length reversed + List.length stack)%nat.
Proof.
  induction reversed as [|m rs IH]; intros stack stack'; simpl.
  - intros [= <-]. lia.
  - destruct (nth_error cave m) as [node|]; [|discriminate].
    destruct (negb (name_in (node_name node) visited)); intros Hpush;
      apply IH in Hpush; simpl in Hpush; lia.
Qed.

Lemma unvisited_weight_mono cave visited n :
  (unvisited_weight cave (n :: visited) <= unvisited_weight cave visited)%nat.
Proof.
  induction cave as [|node cave IH]; simpl; [lia|].
  destruct (String.eqb (node_name node) n); simpl;
    destruct (name_in (node_name node) visited); lia.
Qed.

Lemma unvisited_weight_visit cave visited : forall ref node,
  nth_error cave ref = Some node ->
  name_in (node_name node) visited = false ->
  (unvisited_weight cave (node_name node :: visited)
   + S (List.length (neighbours node))
   <= unvisited_weight cave visited)%nat.
Proof.
  induction cave as [|first cave IH]; intros [|ref] node Hnode Hnew;
    try discriminate; simpl in *.
  - injection Hnode as ->. rewrite String.eqb_refl, Hnew. simpl.
    pose proof (unvisited_weight_mono cave visited (node_name node)). lia.
  - specialize (IH ref node Hnode Hnew).
    destruct (String.eqb (node_name first) (node_name node)); simpl;
      destruct (name_in (node_name first) visited); lia.
Qed.

(** The [while] loop of [NotMinecraft.dfs_explore_cave]: the top of the
    stack is the head of [stack]. *)
Equations? dfs_loop (cave : list CaveNode) (visited : list string)
  (blocks_found : list MinecraftBlock) (stack : list nat)
  : option (list MinecraftBlock) by wf (dfs_measure cave visited stack) lt :=
  dfs_loop cave visited blocks_found [] := Some blocks_found;
  dfs_loop cave visited blocks_found (ref :: stack)
    with inspect (nth_error cave ref) => {
    | exist _ None _ => None
    | exist _ (Some current_node) Hnode
        with inspect (name_in (node_name current_node) visited) => {
        | exist _ true _ => dfs_loop cave visited blocks_found stack
        | exist _ false Hnew
            with inspect (push_unvisited cave (node_name current_node :: visited)
                            (rev (neighbours current_node)) stack) => {
            | exist _ None _ => None
            | exist _ (Some stack') Hpush =>
                dfs_loop cave (node_name current_node :: visited)
                  (blocks_found ++ node_blocks current_node) stack' } } }.
Proof.
  - unfold dfs_measure. simpl. lia.
  - unfold dfs_measure. simpl.
    apply push_unvisited_length in Hpush. rewrite length_rev in Hpush.
    pose proof (unvisited_weight_visit cave visited ref current_node Hnode Hnew).
    lia.
Qed.

(** [NotMinecraft.dfs_explore_cave]. *)
Definition dfs_explore_cave {K} (self : NotMinecraft K CaveSystem)
  : option (list MinecraftBlock) :=
  let visited := [] in
  let blocks_found := [] in
  let stack := [entrance (cave_system self)] in
  dfs_loop (cave_nodes (cave_system self)) visited blocks_found stack.

(** The attributes of the node a reference points to. *)
Definition name_at (cave : list CaveNode) (ref : nat) : string :=
  match nth_error cave ref with
  | Some node => node_name node
  | None => EmptyString
  end.

Definition blocks_at (cave : list CaveNode) (ref : nat)
  : list MinecraftBlock :=
  match nth_error cave ref with
  | Some node => node_blocks node
  | None => []
  end.

Definition neighbours_at (cave : list CaveNode) (ref : nat) : list nat :=
  match nth_error cave ref with
  | Some node => neighbours node
  | None => []
  end.

(** Every reference held by a node of the store points into the store. *)
Definition cave_closed (cave : list CaveNode) : Prop :=
  forall ref m, In m (neighbours_at cave ref) -> (m < List.length cave)%nat.

(** No two nodes of the store have the same name. *)
Definition unique_names (cave : list CaveNode) : Prop :=
  forall a b, (a < List.length cave)%nat -> (b < List.length cave)%nat ->
              name_at cave a = name_at cave b -> a = b.

(** [reach cave a b]: from the node [a], going from a node to one of its
    neighbours some number of times, one gets to the node [b]. *)
Inductive reach (cave : list CaveNode) : nat -> nat -> Prop :=
| reach_here a : (a < List.length cave)%nat -> reach cave a a
| reach_step a b c :
    In b (neighbours_at cave a) -> reach cave b c -> reach cave a c.

(** The name of [m] is visited, or is the name of a node of [order]. *)
Definition seen (cave : list CaveNode) (visited : list string)
  (order : list nat) (m : nat) : Prop :=
  name_in (name_at cave m) visited = true \/
  In (name_at cave m) (map (name_at cave) order).

(** A reference is unvisited when the name of its node is not visited. *)
Definition unvisited (cave : list CaveNode) (visited : list string) (m : nat)
  : bool :=
  negb (name_in (name_at cave m) visited).

(** What a run of the loop does from a state it can be in, where [order]
    lists the nodes whose blocks it collects: their names differ from one
    another and from the visited ones, each is reached from a reference on
    the stack, the top of the stack comes first when its name is not
    visited, and in the end the name of every reference on the stack and of
    every neighbour of a collected node is visited. *)
Definition explores (cave : list CaveNode) (visited : list string)
  (stack order : list nat) : Prop :=
  NoDup (map (name_at cave) order) /\
  Forall (fun r => (r < List.length cave)%nat /\
                   name_in (name_at cave r) visited = false /\
                   exists s, In s stack /\ reach cave s r) order /\
  (forall s rest, stack = s :: rest ->
                  name_in (name_at cave s) visited = false ->
                  hd_error order = Some s) /\
  Forall (seen cave visited order) stack /\
  Forall (fun r => Forall (seen cave visited order) (neighbours_at cave r))
         order.

(** ** More concrete inputs *)

(** A block that cannot be ranked: its hardness is zero. *)
Definition bedrock : MinecraftBlock :=
  mkBlock "bedrock" "unbreakable" 0 (mkItem "nothing" "nothing" 1).

(** A block with the name of iron and another ratio. *)
Definition fools_iron : MinecraftBlock :=
  mkBlock "iron" "not quite an ore" 2 (mkItem "slag" "useless" 1).

(** A game on the checklist of iron, coal and diamond; the cave is not
    looked at. *)
Definition three_blocks_game : NotMinecraft Q unit :=
  game_init tt three_blocks.

(** The exact ratio of a block, where its hardness is not zero. *)
Definition Q_ratio (block : MinecraftBlock) : Q :=
  (inject_Z (value (item block)) / inject_Z (hardness block))%Q.

(** A block of a ratio that the checklist of the examples does not hold. *)
Definition gold : MinecraftBlock :=
  mkBlock "gold" "a metal" 1 (mkItem "nugget" "gold nugget" 2).

(** A heap that hands the blocks out by descending ratio, for blocks
    whose ratio is defined. *)
Definition Q_heap_order (blocks : list MinecraftBlock)
  : option (list MinecraftBlock) :=
  mergesort_raise blocks
    (fun x => r <- ratio Q_truediv x ;; Some (Qopp r)).

(** A cave of four nodes: from the entrance [a] one gets to [b] and [c]
    and back, and never to [d]. *)
Definition small_cave : CaveSystem :=
  mkCave [mkNode "a"%string [iron] [1; 2]%nat;
          mkNode "b"%string [coal] [0; 2]%nat;
          mkNode "c"%string [diamond] [0%nat];
          mkNode "d"%string [gold] []] 0.

Definition small_cave_game : NotMinecraft Q CaveSystem :=
  game_init small_cave three_blocks.

(** * Properties *)

Section OrderFacts.
Context {K : Type} `{KeyOrder K}.

Lemma ltb_asym (x y : K) : ltb x y = true -> ltb y x = false.
Proof.
  intros Hxy. destruct (ltb y x) eqn:Hyx; [|reflexivity].
  rewrite <- (ltb_irrefl x). symmetry. eapply ltb_trans; eassumption.
Qed.

Lemma eqk_false_of_lt (x y : K) : ltb x y = true -> eqk x y = false.
Proof. intros Hxy. unfold eqk. now rewrite Hxy. Qed.

Lemma eqk_false_of_gt (x y : K) : ltb y x = true -> eqk x y = false.
Proof. intros Hyx. unfold eqk. rewrite Hyx. apply andb_false_r. Qed.

Lemma eqk_sym (x y : K) : eqk x y = eqk y x.
Proof. unfold eqk. apply andb_comm. Qed.

(** Keys that are equal in the order compare alike with every key. *)
Lemma ltb_eqk_l (x y z : K) : eqk x y = true -> ltb x z = ltb y z.
Proof.
  unfold eqk. rewrite andb_true_iff, !negb_true_iff. intros [Hxy Hyx].
  destruct (ltb x z) eqn:Hxz, (ltb y z) eqn:Hyz; try reflexivity.
  - destruct (ltb_cotrans x z y Hxz); congruence.
  - destruct (ltb_cotrans y z x Hyz); congruence.
Qed.

Lemma ltb_eqk_r (x y z : K) : eqk x y = true -> ltb z x = ltb z y.
Proof.
  unfold eqk. rewrite andb_true_iff, !negb_true_iff. intros [Hxy Hyx].
  destruct (ltb z x) eqn:Hzx, (ltb z y) eqn:Hzy; try reflexivity.
  - destruct (ltb_cotrans z x y Hzx); congruence.
  - destruct (ltb_cotrans z y x Hzy); congruence.
Qed.

End OrderFacts.

Section ListFacts.
Context {A : Type}.

Lemma subseq_refl (l : list A) : subseq l l.
Proof. induction l; constructor; assumption. Qed.

Lemma subseq_nil_l (l : list A) : subseq [] l.
Proof. induction l; constructor; assumption. Qed.

Lemma subseq_app (l1 l1' l2 l2' : list A) :
  subseq l1 l1' -> subseq l2 l2' -> subseq (l1 ++ l2) (l1' ++ l2').
Proof.
  intros H1 H2. induction H1; simpl; try constructor; assumption.
Qed.

Lemma subseq_Forall (P : A -> Prop) (l1 l2 : list A) :
  subseq l1 l2 -> Forall P l2 -> Forall P l1.
Proof.
  induction 1; intros HP; trivial; inversion HP; subst; auto.
Qed.

Lemma subseq_StronglySorted (R : A -> A -> Prop) (l1 l2 : list A) :
  subseq l1 l2 -> StronglySorted R l2 -> StronglySorted R l1.
Proof.
  induction 1; intros HS; trivial; inversion HS; subst; auto.
  constructor; [auto | eapply subseq_Forall; eassumption].
Qed.

Lemma subseq_filter (f : A -> bool) (l : list A) : subseq (filter f l) l.
Proof.
  induction l as [|a l IH]; simpl; [constructor|].
  destruct (f a); constructor; assumption.
Qed.

Lemma filter_none (f : A -> bool) (l : list A) :
  Forall (fun a => f a = false) l -> filter f l = [].
Proof.
  induction 1 as [|a l Ha _ IH]; simpl; [reflexivity|]. now rewrite Ha.
Qed.

Lemma filter_all (f : A -> bool) (l : list A) :
  Forall (fun a => f a = true) l -> filter f l = l.
Proof.
  induction 1 as [|a l Ha _ IH]; simpl; [reflexivity|]. now rewrite Ha, IH.
Qed.

Lemma Forall_filter_true (f : A -> bool) (l : list A) :
  Forall (fun a => f a = true) (filter f l).
Proof.
  apply Forall_forall. intros a Ha. now apply filter_In in Ha.
Qed.

Lemma StronglySorted_app (R : A -> A -> Prop) (l1 l2 : list A) :
  StronglySorted R l1 -> StronglySorted R l2 ->
  (forall a b, In a l1 -> In b l2 -> R a b) ->
  StronglySorted R (l1 ++ l2).
Proof.
  intros H1 H2 H12. induction H1 as [|a l1 H1 IH Ha]; simpl; [assumption|].
  constructor.
  - apply IH. intros x y Hx Hy. apply H12; [now right | assumption].
  - apply Forall_app. split; [assumption|].
    apply Forall_forall. intros y Hy. apply H12; [now left | assumption].
Qed.

Lemma StronglySorted_app_inv (R : A -> A -> Prop) (l1 l2 : list A) :
  StronglySorted R (l1 ++ l2) ->
  StronglySorted R l1 /\ StronglySorted R l2 /\
  (forall a b, In a l1 -> In b l2 -> R a b).
Proof.
  induction l1 as [|a l1 IH]; simpl; intros HS.
  - repeat split; [constructor | assumption | contradiction].
  - inversion HS as [|? ? HS' Ha]; subst.
    destruct (IH HS') as (H1 & H2 & H12).
    apply Forall_app in Ha. destruct Ha as [Ha1 Ha2].
    repeat split; [constructor; assumption | assumption |].
    intros x y [<- | Hx] Hy; [|auto].
    rewrite Forall_forall in Ha2. auto.
Qed.

(** In a list sorted by an irreflexive relation exactly one entry passes
    a test that only [x] passes. *)
Lemma filter_singleton (R : A -> A -> Prop) (f : A -> bool) (l : list A) (x : A) :
  (forall a, ~ R a a) -> StronglySorted R l -> In x l -> f x = true ->
  (forall y, In y l -> f y = true -> y = x) -> filter f l = [x].
Proof.
  intros Hirr HS. induction HS as [|a l HS IH Ha]; intros Hin Hfx Huniq.
  - contradiction.
  - simpl. destruct (f a) eqn:Hfa.
    + assert (a = x) by (apply Huniq; [now left | assumption]). subst a.
      f_equal. apply filter_none, Forall_forall. intros y Hy.
      destruct (f y) eqn:Hfy; [|reflexivity].
      assert (y = x) by (apply Huniq; [now right | assumption]). subst y.
      rewrite Forall_forall in Ha. exfalso. eapply Hirr, Ha, Hy.
    + destruct Hin as [-> | Hin]; [congruence|].
      apply IH; auto. intros y Hy. apply Huniq. now right.
Qed.

End ListFacts.

Section TreeFacts.
Context {K I : Type} `{KeyOrder K}.

Implicit Types (t l r : TreeNode K I) (f g : K -> bool).

Lemma key_lt_irrefl (a : K * I) : ~ key_lt a a.
Proof. unfold key_lt. now rewrite ltb_irrefl. Qed.

Lemma key_lt_trans (a b c : K * I) : key_lt a b -> key_lt b c -> key_lt a c.
Proof. unfold key_lt. apply ltb_trans. Qed.

(** *** The ordering invariant and the in-order traversal *)

Lemma bst_ordered_sorted t :
  bst_ordered t -> StronglySorted key_lt (inorder_aux t).
Proof.
  induction t as [|k i l IHl r IHr]; simpl; [constructor|].
  intros (Hl & Hr & Bl & Br).
  apply StronglySorted_app; [auto | constructor; auto |].
  - intros a b Ha [<- | Hb].
    + rewrite Forall_forall in Hl. now apply Hl.
    + rewrite Forall_forall in Hl, Hr. unfold key_lt.
      eapply ltb_trans; [now apply Hl | now apply Hr].
Qed.

Lemma sorted_bst_ordered t :
  StronglySorted key_lt (inorder_aux t) -> bst_ordered t.
Proof.
  induction t as [|k i l IHl r IHr]; simpl; [trivial|].
  intros HS. apply StronglySorted_app_inv in HS.
  destruct HS as (Sl & Sr & Hlr).
  inversion Sr as [|? ? Sr' Hk]; subst.
  repeat split; auto.
  apply Forall_forall. intros a Ha. apply (Hlr a (k, i)); [assumption | now left].
Qed.

(** Insertion keeps every property of keys that the new key has. *)
Lemma insert_aux_Forall (P : K -> Prop) t key item :
  Forall (fun e => P (fst e)) (inorder_aux t) -> P key ->
  Forall (fun e => P (fst e)) (inorder_aux (insert_aux t key item)).
Proof.
  induction t as [|k i l IHl r IHr]; simpl; intros Ht Hkey.
  - repeat constructor. assumption.
  - apply Forall_app in Ht. destruct Ht as [Hl Hr].
    inversion Hr as [|? ? Hk Hr']; subst.
    unfold gtb. destruct (ltb key k); [|destruct (ltb k key)]; simpl;
      apply Forall_app; split; auto.
Qed.

Lemma insert_aux_ordered t key item :
  bst_ordered t -> bst_ordered (insert_aux t key item).
Proof.
  induction t as [|k i l IHl r IHr]; simpl.
  - repeat split; constructor.
  - intros (Hl & Hr & Bl & Br). unfold gtb.
    destruct (ltb key k) eqn:Hlt; [|destruct (ltb k key) eqn:Hgt]; simpl;
      repeat split; auto.
    + apply (insert_aux_Forall (fun x => ltb x k = true)); assumption.
    + apply (insert_aux_Forall (fun x => ltb k x = true)); assumption.
Qed.

(** *** The filter *)

(** The traversal only ever appends to [result]. *)
Lemma filter_traverse_acc t f g (result : list (K * I)) :
  _filter_traverse_aux t f g result =
  result ++ _filter_traverse_aux t f g [].
Proof.
  revert result. induction t as [|k i l IHl r IHr]; intros result; simpl.
  - now rewrite app_nil_r.
  - destruct (f k), (g k); simpl;
      repeat first [rewrite app_nil_r | rewrite <- app_assoc
                   | rewrite (IHr (_ ++ _)) | rewrite (IHl result)
                   | rewrite (IHr result) | rewrite (IHr [_]) ];
      reflexivity.
Qed.

Lemma filter_traverse_node k i l r f g :
  _filter_traverse_aux (Node k i l r) f g [] =
  (if f k then _filter_traverse_aux l f g [] else []) ++
  (if both f g (k, i) then [(k, i)] else []) ++
  (if g k then _filter_traverse_aux r f g [] else []).
Proof.
  unfold both. simpl.
  destruct (f k), (g k); simpl;
    repeat first [rewrite app_nil_r | rewrite (filter_traverse_acc r _ _ (_ ++ _))
                 | rewrite (filter_traverse_acc r _ _ [_]) | rewrite <- app_assoc];
    reflexivity.
Qed.

Lemma filter_inorder_node k i l r (h : K * I -> bool) :
  filter h (inorder_aux (Node k i l r)) =
  filter h (inorder_aux l) ++ (if h (k, i) then [(k, i)] else []) ++
  filter h (inorder_aux r).
Proof.
  simpl. rewrite filter_app. simpl. now destruct (h (k, i)).
Qed.

(** Whatever the predicates, the result is part of the brute-force
    filter of the in-order traversal. *)
Lemma filter_traverse_subseq t f g :
  subseq (_filter_traverse_aux t f g [])
         (filter (both f g) (inorder_aux t)).
Proof.
  induction t as [|k i l IHl r IHr].
  - constructor.
  - rewrite filter_traverse_node, filter_inorder_node.
    repeat apply subseq_app.
    + destruct (f k); [assumption | apply subseq_nil_l].
    + apply subseq_refl.
    + destruct (g k); [assumption | apply subseq_nil_l].
Qed.

(** With monotone predicates on an ordered tree nothing is missed. *)
Lemma filter_traverse_exact t f g :
  bst_ordered t -> monotone_lower f -> monotone_upper g ->
  _filter_traverse_aux t f g [] = filter (both f g) (inorder_aux t).
Proof.
  intros Ht M1 M2. induction t as [|k i l IHl r IHr]; [reflexivity|].
  destruct Ht as (Hl & Hr & Bl & Br).
  rewrite filter_traverse_node, filter_inorder_node.
  f_equal; [|f_equal].
  - destruct (f k) eqn:E1; [auto|].
    symmetry. apply filter_none.
    eapply Forall_impl; [|exact Hl]. intros [x v] Hx; simpl in *.
    unfold both; simpl. destruct (f x) eqn:E; [|reflexivity].
    rewrite (M1 x k Hx E) in E1. discriminate.
  - destruct (g k) eqn:E2; [auto|].
    symmetry. apply filter_none.
    eapply Forall_impl; [|exact Hr]. intros [x v] Hx; simpl in *.
    unfold both; simpl. destruct (g x) eqn:E; [|apply andb_false_r].
    rewrite (M2 k x Hx E) in E2. discriminate.
Qed.

(** The result depends on the predicates only through their values. *)
Lemma filter_traverse_ext t f g f' g' result :
  (forall k, f k = f' k) -> (forall k, g k = g' k) ->
  _filter_traverse_aux t f g result = _filter_traverse_aux t f' g' result.
Proof.
  intros E1 E2. revert result.
  induction t as [|k i l IHl r IHr]; intros result; simpl; [reflexivity|].
  rewrite <- E1, <- E2, IHl.
  destruct (f k), (g k); simpl; now rewrite ?IHr.
Qed.

End TreeFacts.

Section BuilderFacts.
Context {K I : Type} `{KeyOrder K}.

(** *** Indexing *)

Lemma elements_get_Some {A} (elements : list A) (i : Z) :
  0 <= i < Z.of_nat (List.length elements) ->
  exists x, elements_get elements i = Some x.
Proof.
  intros Hi. unfold elements_get.
  destruct (i <? 0) eqn:E; [apply Z.ltb_lt in E; lia|].
  destruct (nth_error elements (Z.to_nat i)) eqn:E'; [eauto|].
  apply nth_error_None in E'. lia.
Qed.

Lemma elements_get_nth {A} (elements : list A) (i : Z) (x : A) :
  elements_get elements i = Some x ->
  0 <= i /\ nth_error elements (Z.to_nat i) = Some x.
Proof.
  unfold elements_get. destruct (i <? 0) eqn:E; [discriminate|].
  apply Z.ltb_ge in E. auto.
Qed.

Lemma median_bounds (s e : Z) : s <= e -> s <= (s + e) / 2 <= e.
Proof.
  intros Hse.
  split; [apply Z.div_le_lower_bound | apply Z.div_le_upper_bound]; lia.
Qed.

(** *** The recursions, unfolded once *)

Section Unfold.
Context {State : Type} (set : K -> I -> State -> State).

Lemma build_unfold elements s e self :
  _build_subtree_aux set elements s e self =
  if s >? e then Some self else
  match elements_get elements ((s + e) / 2) with
  | None => None
  | Some (key, item) =>
      match _build_subtree_aux set elements s ((s + e) / 2 - 1)
              (set key item self) with
      | None => None
      | Some self1 => _build_subtree_aux set elements ((s + e) / 2 + 1) e self1
      end
  end.
Proof.
  rewrite _build_subtree_aux_equation_1.
  destruct (Z_gt_le_dec s e) as [Hgt | Hle]; simpl.
  - apply Z.gt_lt, Z.gtb_lt in Hgt. now rewrite Hgt.
  - destruct (s >? e) eqn:E; [apply Z.gtb_lt in E; lia | reflexivity].
Qed.

Lemma build_swapped_unfold elements s e self :
  _build_subtree_aux_swapped set elements s e self =
  if s >? e then Some self else
  match elements_get elements ((s + e) / 2) with
  | None => None
  | Some (key, item) =>
      match _build_subtree_aux_swapped set elements ((s + e) / 2 + 1) e
              (set key item self) with
      | None => None
      | Some self1 =>
          _build_subtree_aux_swapped set elements s ((s + e) / 2 - 1) self1
      end
  end.
Proof.
  rewrite _build_subtree_aux_swapped_equation_1.
  destruct (Z_gt_le_dec s e) as [Hgt | Hle]; simpl.
  - apply Z.gt_lt, Z.gtb_lt in Hgt. now rewrite Hgt.
  - destruct (s >? e) eqn:E; [apply Z.gtb_lt in E; lia | reflexivity].
Qed.

(** On a range of valid indices the builder raises no error, and it keeps
    every property of the object that each assignment keeps. *)
Lemma build_invariant (Inv : State -> Prop) elements :
  (forall key item self, Inv self -> Inv (set key item self)) ->
  forall n s e self,
    (Z.to_nat (e - s + 1) <= n)%nat ->
    0 <= s -> e < Z.of_nat (List.length elements) -> Inv self ->
    exists self', _build_subtree_aux set elements s e self = Some self' /\
                  Inv self'.
Proof.
  intros Hset. induction n as [|n IH]; intros s e self Hn Hs He Hself;
    rewrite build_unfold; destruct (s >? e) eqn:E; eauto;
    rewrite Z.gtb_ltb in E; apply Z.ltb_ge in E; [lia|].
  pose proof (median_bounds s e E) as Hm.
  destruct (elements_get_Some elements ((s + e) / 2)) as [[k v] ->]; [lia|].
  destruct (IH s ((s + e) / 2 - 1) (set k v self)) as (self1 & -> & H1);
    try lia; auto.
  apply IH; try lia; assumption.
Qed.

End Unfold.

Lemma median_tree_eq (elements : list (K * I)) s e :
  median_tree elements s e =
  if s >? e then Nil else
  match elements_get elements ((s + e) / 2) with
  | None => Nil
  | Some (key, item) =>
      Node key item (median_tree elements s ((s + e) / 2 - 1))
                    (median_tree elements ((s + e) / 2 + 1) e)
  end.
Proof.
  rewrite median_tree_equation_1.
  destruct (Z_gt_le_dec s e) as [Hgt | Hle]; simpl.
  - apply Z.gt_lt, Z.gtb_lt in Hgt. now rewrite Hgt.
  - destruct (s >? e) eqn:E; [apply Z.gtb_lt in E; lia | reflexivity].
Qed.

(** *** Insertion below a hole *)

Lemma insert_aux_plug (c : list (frame K I)) (t : TreeNode K I) x v :
  Forall (routed x) c ->
  insert_aux (plug c t) x v = plug c (insert_aux t x v).
Proof.
  intros Hc. revert t. induction Hc as [|f c Hf _ IH]; intros t; [reflexivity|].
  destruct f as [k i r | k i l]; simpl in *; rewrite IH; simpl; unfold gtb.
  - now rewrite Hf.
  - now rewrite (ltb_asym _ _ Hf), Hf.
Qed.

Lemma get_aux_plug (c : list (frame K I)) (t : TreeNode K I) x :
  Forall (routed x) c -> get_aux (plug c t) x = get_aux t x.
Proof.
  intros Hc. revert t. induction Hc as [|f c Hf _ IH]; intros t; [reflexivity|].
  destruct f as [k i r | k i l]; simpl in *; rewrite IH; simpl.
  - now rewrite (eqk_false_of_lt _ _ Hf), Hf.
  - now rewrite (eqk_false_of_gt _ _ Hf), (ltb_asym _ _ Hf).
Qed.

Lemma setitem_plug (c : list (frame K I)) x v (n : nat) :
  Forall (routed x) c ->
  setitem x v (mkBST (plug c Nil) n) = mkBST (plug c (Node x v Nil Nil)) (S n).
Proof.
  intros Hc. unfold setitem, contains, getitem; simpl.
  now rewrite insert_aux_plug, get_aux_plug.
Qed.

(** *** Building from strictly ascending entries *)

Lemma sorted_nth_lt (R : K * I -> K * I -> Prop) (l : list (K * I)) :
  StronglySorted R l ->
  forall i j a b, (i < j)%nat ->
    nth_error l i = Some a -> nth_error l j = Some b -> R a b.
Proof.
  induction 1 as [|x l HS IH Hx]; intros i j a b Hij Ha Hb.
  - destruct i; discriminate.
  - destruct j as [|j]; [lia|]. simpl in Hb. destruct i as [|i]; simpl in Ha.
    + injection Ha as <-. rewrite Forall_forall in Hx.
      eapply Hx, nth_error_In, Hb.
    + eapply (IH i j); [lia | eassumption | eassumption].
Qed.

Lemma sorted_get_lt (elements : list (K * I)) i j a b :
  StronglySorted key_lt elements -> i < j ->
  elements_get elements i = Some a -> elements_get elements j = Some b ->
  ltb (fst a) (fst b) = true.
Proof.
  intros HS Hij Ha Hb.
  apply elements_get_nth in Ha, Hb. destruct Ha as [Hi Ha], Hb as [Hj Hb].
  apply (sorted_nth_lt key_lt elements HS (Z.to_nat i) (Z.to_nat j)); auto.
  lia.
Qed.

Section Sorted.
Variable elements : list (K * I).
Hypothesis elements_sorted : StronglySorted key_lt elements.

Lemma range_routed_left s e c k v r :
  s <= e -> elements_get elements ((s + e) / 2) = Some (k, v) ->
  range_routed elements s e c ->
  range_routed elements s ((s + e) / 2 - 1) (InLeft k v r :: c).
Proof.
  intros Hse Hmid Hc i x Hi Hx. pose proof (median_bounds s e Hse).
  constructor; [|apply (Hc i); [lia | assumption]].
  simpl. apply (sorted_get_lt elements i ((s + e) / 2) x (k, v)); auto. lia.
Qed.

Lemma range_routed_right s e c k v l :
  s <= e -> elements_get elements ((s + e) / 2) = Some (k, v) ->
  range_routed elements s e c ->
  range_routed elements ((s + e) / 2 + 1) e (InRight k v l :: c).
Proof.
  intros Hse Hmid Hc i x Hi Hx. pose proof (median_bounds s e Hse).
  constructor; [|apply (Hc i); [lia | assumption]].
  simpl. apply (sorted_get_lt elements ((s + e) / 2) i (k, v) x); auto. lia.
Qed.

(** Building the range [s .. e] into the hole of a tree fills the hole
    with the tree of medians of that range. *)
Lemma build_plug n : forall s e c len,
  (Z.to_nat (e - s + 1) <= n)%nat ->
  0 <= s -> e < Z.of_nat (List.length elements) -> range_routed elements s e c ->
  _build_subtree_aux setitem elements s e (mkBST (plug c Nil) len) =
  Some (mkBST (plug c (median_tree elements s e))
              (len + Z.to_nat (e - s + 1))).
Proof.
  induction n as [|n IH]; intros s e c len Hn Hs He Hc;
    rewrite build_unfold, median_tree_eq; destruct (s >? e) eqn:E;
    try (apply Z.gtb_lt in E;
         replace (Z.to_nat (e - s + 1)) with 0%nat by lia;
         now rewrite Nat.add_0_r);
    rewrite Z.gtb_ltb in E; apply Z.ltb_ge in E; [lia|].
  pose proof (median_bounds s e E) as Hm.
  destruct (elements_get_Some elements ((s + e) / 2)) as [[k v] Hmid]; [lia|].
  rewrite Hmid, setitem_plug by exact (Hc _ _ Hm Hmid).
  change (plug c (Node k v Nil Nil)) with (plug (InLeft k v Nil :: c) Nil).
  rewrite IH by (try lia; now apply range_routed_left).
  change (plug (InLeft k v Nil :: c) (median_tree elements s ((s + e) / 2 - 1)))
    with (plug (InRight k v (median_tree elements s ((s + e) / 2 - 1)) :: c) Nil).
  rewrite IH by (try lia; now apply range_routed_right).
  simpl. do 2 f_equal. lia.
Qed.

(** The same holds when the right half is built before the left half. *)
Lemma build_swapped_plug n : forall s e c len,
  (Z.to_nat (e - s + 1) <= n)%nat ->
  0 <= s -> e < Z.of_nat (List.length elements) -> range_routed elements s e c ->
  _build_subtree_aux_swapped setitem elements s e (mkBST (plug c Nil) len) =
  Some (mkBST (plug c (median_tree elements s e))
              (len + Z.to_nat (e - s + 1))).
Proof.
  induction n as [|n IH]; intros s e c len Hn Hs He Hc;
    rewrite build_swapped_unfold, median_tree_eq; destruct (s >? e) eqn:E;
    try (apply Z.gtb_lt in E;
         replace (Z.to_nat (e - s + 1)) with 0%nat by lia;
         now rewrite Nat.add_0_r);
    rewrite Z.gtb_ltb in E; apply Z.ltb_ge in E; [lia|].
  pose proof (median_bounds s e E) as Hm.
  destruct (elements_get_Some elements ((s + e) / 2)) as [[k v] Hmid]; [lia|].
  rewrite Hmid, setitem_plug by exact (Hc _ _ Hm Hmid).
  change (plug c (Node k v Nil Nil)) with (plug (InRight k v Nil :: c) Nil).
  rewrite IH by (try lia; now apply range_routed_right).
  change (plug (InRight k v Nil :: c) (median_tree elements ((s + e) / 2 + 1) e))
    with (plug (InLeft k v (median_tree elements ((s + e) / 2 + 1) e) :: c) Nil).
  rewrite IH by (try lia; now apply range_routed_left).
  simpl. do 2 f_equal. lia.
Qed.

End Sorted.

End BuilderFacts.

Section MedianTreeFacts.
Context {K I : Type} `{KeyOrder K}.

Lemma firstn_add_skipn {A} (m q : nat) (l : list A) :
  firstn (m + q) l = firstn m l ++ firstn q (skipn m l).
Proof.
  revert l. induction m as [|m IH]; intros [|a l]; simpl;
    rewrite ?firstn_nil; try reflexivity.
  now rewrite IH.
Qed.

Lemma skipn_cons_nth {A} (j : nat) (l : list A) (x : A) :
  nth_error l j = Some x -> skipn j l = x :: skipn (S j) l.
Proof.
  revert l. induction j as [|j IH]; intros [|a l] Hx; try discriminate.
  - now injection Hx as ->.
  - apply (IH l Hx).
Qed.

(** A slice of a list, cut at one of its positions. *)
Lemma slice_split {A} (l : list A) (a m p : nat) (x : A) :
  nth_error l (a + m) = Some x ->
  firstn (m + S p) (skipn a l) =
  firstn m (skipn a l) ++ x :: firstn p (skipn (a + m + 1) l).
Proof.
  intros Hx. rewrite firstn_add_skipn, skipn_skipn, (Nat.add_comm m a).
  rewrite (skipn_cons_nth _ _ _ Hx). simpl.
  now rewrite Nat.add_1_r.
Qed.

Lemma size_aux_inorder (t : TreeNode K I) :
  size_aux t = List.length (inorder_aux t).
Proof.
  induction t as [|k i l IHl r IHr]; simpl; [reflexivity|].
  rewrite length_app. simpl. lia.
Qed.

Variable elements : list (K * I).

(** The in-order traversal of the tree of medians of [s .. e] is that
    slice of the entries. *)
Lemma median_tree_inorder n : forall s e,
  (Z.to_nat (e - s + 1) <= n)%nat ->
  0 <= s -> e < Z.of_nat (List.length elements) ->
  inorder_aux (median_tree elements s e) =
  firstn (Z.to_nat (e - s + 1)) (skipn (Z.to_nat s) elements).
Proof.
  induction n as [|n IH]; intros s e Hn Hs He;
    rewrite median_tree_eq; destruct (s >? e) eqn:E;
    try (apply Z.gtb_lt in E;
         now replace (Z.to_nat (e - s + 1)) with 0%nat by lia);
    rewrite Z.gtb_ltb in E; apply Z.ltb_ge in E; [lia|].
  pose proof (median_bounds s e E) as Hm.
  destruct (elements_get_Some elements ((s + e) / 2)) as [[k v] Hmid]; [lia|].
  rewrite Hmid. simpl. rewrite !IH by lia.
  apply elements_get_nth in Hmid. destruct Hmid as [_ Hmid].
  replace (Z.to_nat (e - s + 1))
    with (Z.to_nat ((s + e) / 2 - 1 - s + 1)
          + S (Z.to_nat (e - ((s + e) / 2 + 1) + 1)))%nat by lia.
  rewrite (slice_split elements _ _ _ (k, v)).
  - repeat f_equal. lia.
  - rewrite <- Hmid. f_equal. lia.
Qed.

Lemma median_tree_size s e :
  0 <= s -> e < Z.of_nat (List.length elements) ->
  size_aux (median_tree elements s e) = Z.to_nat (e - s + 1).
Proof.
  intros Hs He.
  rewrite size_aux_inorder, (median_tree_inorder _ s e (le_n _)) by assumption.
  rewrite length_firstn, length_skipn. lia.
Qed.

(** Each node of the tree of medians splits its range into halves whose
    sizes differ by at most one. *)
Lemma median_tree_balanced n : forall s e,
  (Z.to_nat (e - s + 1) <= n)%nat ->
  0 <= s -> e < Z.of_nat (List.length elements) ->
  size_balanced (median_tree elements s e).
Proof.
  induction n as [|n IH]; intros s e Hn Hs He;
    rewrite median_tree_eq; destruct (s >? e) eqn:E; simpl; trivial;
    rewrite Z.gtb_ltb in E; apply Z.ltb_ge in E; [lia|].
  pose proof (median_bounds s e E) as Hm.
  destruct (elements_get_Some elements ((s + e) / 2)) as [[k v] Hmid]; [lia|].
  rewrite Hmid. simpl. rewrite !median_tree_size by lia.
  split; [|split; apply IH; lia].
  pose proof (Z.div_mod (s + e) 2 ltac:(lia)).
  pose proof (Z.mod_pos_bound (s + e) 2 ltac:(lia)). lia.
Qed.

(** The number of levels of a tree whose halves differ by at most one. *)
Lemma log2_up_halves (a b : nat) :
  (a <= b <= S a)%nat ->
  S (Nat.max (Nat.log2_up (a + 1)) (Nat.log2_up (b + 1)))
  = Nat.log2_up (S (a + b) + 1).
Proof.
  intros Hab.
  rewrite Nat.max_r by (apply Nat.log2_up_le_mono; lia).
  destruct (Nat.eq_dec b a) as [-> | Hne].
  - replace (S (a + a) + 1)%nat with (2 * (a + 1))%nat by lia.
    rewrite Nat.log2_up_double by lia. reflexivity.
  - assert (b = S a) by lia. subst b.
    replace (S (a + S a) + 1)%nat with (2 * (a + 1) + 1)%nat by lia.
    rewrite Nat.log2_up_succ_double by lia.
    rewrite (Nat.log2_up_eqn (S a + 1)) by lia.
    replace (Nat.pred (S a + 1)) with (a + 1)%nat by lia. reflexivity.
Qed.

Lemma median_tree_height n : forall s e,
  (Z.to_nat (e - s + 1) <= n)%nat ->
  0 <= s -> e < Z.of_nat (List.length elements) ->
  height_aux (median_tree elements s e)
  = Nat.log2_up (Z.to_nat (e - s + 1) + 1).
Proof.
  induction n as [|n IH]; intros s e Hn Hs He;
    rewrite median_tree_eq; destruct (s >? e) eqn:E;
    try (apply Z.gtb_lt in E;
         now replace (Z.to_nat (e - s + 1)) with 0%nat by lia);
    rewrite Z.gtb_ltb in E; apply Z.ltb_ge in E; [lia|].
  pose proof (median_bounds s e E) as Hm.
  destruct (elements_get_Some elements ((s + e) / 2)) as [[k v] Hmid]; [lia|].
  rewrite Hmid. simpl. rewrite !IH by lia.
  pose proof (Z.div_mod (s + e) 2 ltac:(lia)).
  pose proof (Z.mod_pos_bound (s + e) 2 ltac:(lia)).
  rewrite log2_up_halves by lia. f_equal. lia.
Qed.

End MedianTreeFacts.

Section SortFacts.
Context {K A : Type} `{KeyOrder K}.
Variable key : A -> K.

(** [a] is not above [b]. *)
Let le (a b : A) : Prop := ltb (key b) (key a) = false.

Lemma le_trans (a b c : A) : le a b -> le b c -> le a c.
Proof.
  unfold le. intros Hab Hbc. destruct (ltb (key c) (key a)) eqn:E; [|reflexivity].
  destruct (ltb_cotrans _ _ (key b) E); congruence.
Qed.

Lemma merge_nil_l (l : list A) : merge key [] l = l.
Proof. now destruct l. Qed.

Lemma merge_nil_r (l : list A) : merge key l [] = l.
Proof. now destruct l. Qed.

Lemma merge_cons (a1 a2 : A) (l1 l2 : list A) :
  merge key (a1 :: l1) (a2 :: l2) =
  if ltb (key a2) (key a1) then a2 :: merge key (a1 :: l1) l2
  else a1 :: merge key l1 (a2 :: l2).
Proof. reflexivity. Qed.

Lemma merge_perm (l1 l2 : list A) : Permutation (merge key l1 l2) (l1 ++ l2).
Proof.
  revert l2. induction l1 as [|a1 l1 IH1]; intros l2;
    [now rewrite merge_nil_l|].
  induction l2 as [|a2 l2 IH2].
  - rewrite merge_nil_r, app_nil_r. reflexivity.
  - rewrite merge_cons. destruct (ltb (key a2) (key a1)).
    + rewrite IH2. apply Permutation_middle.
    + simpl. now rewrite IH1.
Qed.

Lemma merge_sorted (l1 l2 : list A) :
  StronglySorted le l1 -> StronglySorted le l2 ->
  StronglySorted le (merge key l1 l2).
Proof.
  intros H1. revert l2. induction H1 as [|a1 l1 H1 IH1 Ha1]; intros l2 H2;
    [now rewrite merge_nil_l|].
  induction H2 as [|a2 l2 H2 IH2 Ha2]; [rewrite merge_nil_r; now constructor|].
  rewrite merge_cons. destruct (ltb (key a2) (key a1)) eqn:E.
  - assert (Hle : le a2 a1) by (apply ltb_asym, E).
    constructor; [assumption|].
    eapply Permutation_Forall; [symmetry; apply merge_perm|].
    apply Forall_app. split; [|assumption].
    constructor; [assumption|].
    eapply Forall_impl; [|exact Ha1]. intros b. now apply le_trans.
  - constructor; [apply IH1; now constructor|].
    eapply Permutation_Forall; [symmetry; apply merge_perm|].
    apply Forall_app. split; [assumption|].
    constructor; [exact E|].
    eapply Forall_impl; [|exact Ha2]. intros b. now apply le_trans.
Qed.

Lemma mergesort_eq (l : list A) :
  mergesort l key =
  if (List.length l <=? 1)%nat then l
  else merge key (mergesort (firstn (List.length l / 2) l) key)
                 (mergesort (skipn (List.length l / 2) l) key).
Proof.
  rewrite mergesort_equation_1.
  destruct (le_lt_dec (List.length l) 1) as [Hle | Hgt]; simpl.
  - apply Nat.leb_le in Hle. now rewrite Hle.
  - destruct (List.length l <=? 1)%nat eqn:E;
      [apply Nat.leb_le in E; lia | reflexivity].
Qed.

Lemma mergesort_perm_sorted (n : nat) : forall l,
  (List.length l <= n)%nat ->
  Permutation (mergesort l key) l /\ StronglySorted le (mergesort l key).
Proof.
  induction n as [|n IH]; intros l Hn; rewrite mergesort_eq;
    destruct (List.length l <=? 1)%nat eqn:E;
    try (apply Nat.leb_le in E; split; [reflexivity|];
         destruct l as [|a [|b l]]; simpl in E; try lia;
         repeat constructor);
    apply Nat.leb_gt in E; [lia|].
  assert (0 < List.length l / 2 < List.length l)%nat as Hhalf
    by (split; [apply Nat.div_str_pos | apply Nat.div_lt]; lia).
  destruct (IH (firstn (List.length l / 2) l)) as [P1 S1];
    [rewrite length_firstn; lia|].
  destruct (IH (skipn (List.length l / 2) l)) as [P2 S2];
    [rewrite length_skipn; lia|].
  split; [|now apply merge_sorted].
  rewrite merge_perm, P1, P2. now rewrite firstn_skipn.
Qed.

Lemma mergesort_perm (l : list A) : Permutation (mergesort l key) l.
Proof. apply (mergesort_perm_sorted (List.length l) l (le_n _)). Qed.

Lemma mergesort_sorted (l : list A) :
  StronglySorted (fun a b => ltb (key b) (key a) = false) (mergesort l key).
Proof. apply (mergesort_perm_sorted (List.length l) l (le_n _)). Qed.

End SortFacts.

Section DistinctFacts.
Context {K I : Type} `{KeyOrder K}.

Lemma distinct_keys_perm (l l' : list (K * I)) :
  Permutation l l' -> distinct_keys l -> distinct_keys l'.
Proof.
  unfold distinct_keys. induction 1 as [|x l l' HP IH|x y l|l l' l'' _ IH1 _ IH2];
    intros Hd; auto.
  - inversion Hd; subst. constructor; [|auto].
    eapply Permutation_Forall; eassumption.
  - inversion Hd as [|? ? Hy Hd']; subst. inversion Hd' as [|? ? Hx Hl]; subst.
    inversion Hy as [|? ? Hyx Hyl]; subst.
    repeat constructor; auto. now rewrite eqk_sym.
Qed.

(** Entries in ascending order with pairwise distinct keys are in
    strictly ascending order. *)
Lemma sorted_distinct_strict (l : list (K * I)) :
  StronglySorted key_le l -> distinct_keys l -> StronglySorted key_lt l.
Proof.
  unfold distinct_keys. induction 1 as [|a l HS IH Ha]; intros Hd; [constructor|].
  inversion Hd as [|? ? Hne Hd']; subst. constructor; [auto|].
  apply Forall_forall. intros b Hb. rewrite Forall_forall in Ha, Hne.
  specialize (Ha b Hb). specialize (Hne b Hb).
  unfold key_le, key_lt, eqk in *. rewrite Ha in Hne.
  destruct (ltb (fst a) (fst b)); [reflexivity | discriminate].
Qed.

Lemma sort_elements_perm (elements : list (K * I)) :
  Permutation (__sort_elements elements) elements.
Proof. apply mergesort_perm. Qed.

Lemma sort_elements_strict (elements : list (K * I)) :
  distinct_keys elements -> StronglySorted key_lt (__sort_elements elements).
Proof.
  intros Hd. apply sorted_distinct_strict.
  - apply (mergesort_sorted fst).
  - eapply distinct_keys_perm; [symmetry; apply sort_elements_perm | assumption].
Qed.

End DistinctFacts.

(** ** The tree that [__init__] builds *)

Section InitFacts.
Context {K I : Type} `{KeyOrder K}.

(** Whatever the entries, [__init__] returns a tree, and the tree has the
    ordering invariant. *)
Lemma init_ordered (elements : list (K * I)) :
  exists T, __init__ elements = Some T /\ bst_ordered (root T).
Proof.
  unfold __init__, __build_balanced_tree.
  apply (build_invariant setitem (fun self => bst_ordered (root self)))
    with (n := List.length (__sort_elements elements)); simpl; try lia; trivial.
  intros key item self. apply insert_aux_ordered.
Qed.

(** With distinct keys the tree is the tree of medians of the sorted
    entries. *)
Lemma init_median (elements : list (K * I)) :
  distinct_keys elements ->
  __init__ elements =
  Some (mkBST (median_tree (__sort_elements elements) 0
                 (Z.of_nat (List.length elements) - 1))
              (List.length elements)).
Proof.
  intros Hd. unfold __init__, __build_balanced_tree, empty_tree.
  pose proof (Permutation_length (sort_elements_perm elements)) as Hlen.
  change (@Nil K I) with (plug (@nil (frame K I)) Nil).
  rewrite (build_plug _ (sort_elements_strict elements Hd)
             (List.length elements)); try lia.
  - rewrite Hlen. simpl. do 2 f_equal. lia.
  - intros i x _ _. constructor.
Qed.

Lemma median_tree_whole (elements : list (K * I)) :
  inorder_aux (median_tree elements 0 (Z.of_nat (List.length elements) - 1))
  = elements.
Proof.
  rewrite (median_tree_inorder elements (List.length elements)) by lia.
  simpl. apply firstn_all2. lia.
Qed.

Lemma filter_traverse_lower_false (t : TreeNode K I) (f g : K -> bool) :
  (forall k, f k = false) -> _filter_traverse_aux t f g [] = [].
Proof.
  intros Hf. induction t as [|k i l IHl r IHr]; [reflexivity|].
  rewrite filter_traverse_node. unfold both. simpl. rewrite Hf. simpl.
  now destruct (g k).
Qed.

Lemma filter_traverse_all (t : TreeNode K I) (f g : K -> bool) :
  (forall k, f k = true) -> (forall k, g k = true) ->
  _filter_traverse_aux t f g [] = inorder_aux t.
Proof.
  intros Hf Hg. induction t as [|k i l IHl r IHr]; [reflexivity|].
  rewrite filter_traverse_node. unfold both. simpl.
  now rewrite Hf, Hg, IHl, IHr.
Qed.

End InitFacts.

(** ** The claims about [BetterBST] *)

Section BetterBSTClaims.
Context {K I : Type} `{KeyOrder K}.

(** C1. For the tree [T] that the builder returns and predicates that are
    monotone in the key order, [filter_keys] returns exactly the entries of
    the in-order traversal of [T] on which both predicates hold, in the
    order of the traversal, which is strictly ascending by key. *)
Theorem filter_keys_correct (elements : list (K * I))
  (lower_pred upper_pred : K -> bool) :
  monotone_lower lower_pred -> monotone_upper upper_pred ->
  exists T, __init__ elements = Some T /\
    filter_keys T lower_pred upper_pred
    = filter (both lower_pred upper_pred) (inorder T) /\
    StronglySorted key_lt (filter_keys T lower_pred upper_pred).
Proof.
  intros Hlower Hupper.
  destruct (init_ordered elements) as (T & HT & Hord).
  exists T. split; [assumption|].
  assert (Heq : filter_keys T lower_pred upper_pred
                = filter (both lower_pred upper_pred) (inorder T))
    by (apply filter_traverse_exact; assumption).
  split; [assumption|]. rewrite Heq.
  eapply subseq_StronglySorted; [apply subseq_filter|].
  now apply bst_ordered_sorted.
Qed.

(** C2. For entries with distinct keys the builder returns a tree whose
    in-order traversal is the sorted input: a rearrangement of the input,
    nothing added or lost, strictly ascending by key. *)
Theorem init_inorder_sorted (elements : list (K * I)) :
  distinct_keys elements ->
  exists T, __init__ elements = Some T /\
    inorder T = __sort_elements elements /\
    Permutation (inorder T) elements /\
    StronglySorted key_lt (inorder T) /\
    length T = List.length elements.
Proof.
  intros Hd. eexists. split; [apply init_median; assumption|].
  pose proof (Permutation_length (sort_elements_perm elements)) as Hlen.
  assert (Hin : inorder_aux (median_tree (__sort_elements elements) 0
                               (Z.of_nat (List.length elements) - 1))
                = __sort_elements elements)
    by (rewrite <- Hlen; apply median_tree_whole).
  unfold inorder; simpl. rewrite Hin.
  repeat split.
  - apply sort_elements_perm.
  - now apply sort_elements_strict.
Qed.

(** C3. For [n] entries with distinct keys the tree that the builder
    returns has exactly [log2_up (n + 1)] levels, and at every node the
    sizes of the two subtrees differ by at most one. *)
Theorem init_height (elements : list (K * I)) :
  distinct_keys elements ->
  exists T, __init__ elements = Some T /\
    height T = Nat.log2_up (List.length elements + 1) /\
    size_balanced (root T).
Proof.
  intros Hd. eexists. split; [apply init_median; assumption|].
  pose proof (Permutation_length (sort_elements_perm elements)) as Hlen.
  unfold height; simpl. split.
  - rewrite (median_tree_height _ (List.length elements)) by lia.
    f_equal. lia.
  - apply (median_tree_balanced _ (List.length elements)); lia.
Qed.

(** C5, as the code has it. Building from no entries raises nothing: the
    sort returns no entries, the recursion on the range 0 .. -1 meets its
    base case [start > end] at once and hands the object back, and the
    result is the empty tree, of size 0 and with nothing to traverse. *)
Theorem init_empty :
  __sort_elements (@nil (K * I)) = [] /\
  (forall State (set : K -> I -> State -> State) (self : State),
      _build_subtree_aux set [] 0 (-1) self = Some self) /\
  __init__ (@nil (K * I)) = Some empty_tree /\
  inorder (@empty_tree K I) = [] /\
  length (@empty_tree K I) = 0%nat.
Proof.
  split; [unfold __sort_elements; now rewrite mergesort_eq|].
  split; [intros State set self; now rewrite build_unfold|].
  unfold __init__, __sort_elements, __build_balanced_tree.
  rewrite mergesort_eq. simpl. rewrite build_unfold. simpl. auto.
Qed.

(** C6. For sorted entries, whose keys are distinct as the data model has
    them (strictly ascending), building the right sub-range before the left
    one returns the same tree as the order of the code. *)
Theorem build_order_irrelevant (elements : list (K * I)) :
  StronglySorted key_lt elements ->
  exists T, __build_balanced_tree setitem elements empty_tree = Some T /\
    __build_balanced_tree_swapped setitem elements empty_tree = Some T.
Proof.
  intros HS. unfold __build_balanced_tree, __build_balanced_tree_swapped.
  unfold empty_tree. change (@Nil K I) with (plug (@nil (frame K I)) Nil).
  assert (Hr : range_routed elements 0 (Z.of_nat (List.length elements) - 1) [])
    by (intros i x _ _; constructor).
  rewrite (build_plug _ HS (List.length elements)),
          (build_swapped_plug _ HS (List.length elements)) by (try lia; exact Hr).
  eauto.
Qed.

(** C7. On the tree that the builder returns: a lower predicate that no
    key passes gives the empty result; predicates that every key passes
    give the whole in-order traversal; monotone predicates that exactly one
    entry of the tree passes give that entry alone. *)
Theorem filter_keys_boundary (elements : list (K * I)) :
  exists T, __init__ elements = Some T /\
    (forall lower_pred upper_pred,
        (forall k, lower_pred k = false) ->
        filter_keys T lower_pred upper_pred = []) /\
    (forall lower_pred upper_pred,
        (forall k, lower_pred k = true) -> (forall k, upper_pred k = true) ->
        filter_keys T lower_pred upper_pred = inorder T) /\
    (forall lower_pred upper_pred entry,
        monotone_lower lower_pred -> monotone_upper upper_pred ->
        In entry (inorder T) -> both lower_pred upper_pred entry = true ->
        (forall other, In other (inorder T) ->
                       both lower_pred upper_pred other = true ->
                       other = entry) ->
        filter_keys T lower_pred upper_pred = [entry]).
Proof.
  destruct (init_ordered elements) as (T & HT & Hord).
  exists T. split; [assumption|]. repeat split.
  - intros f g Hf. now apply filter_traverse_lower_false.
  - intros f g Hf Hg. now apply filter_traverse_all.
  - intros f g entry Mf Mg Hin Hboth Honly. unfold filter_keys.
    rewrite filter_traverse_exact by assumption.
    apply (filter_singleton key_lt); auto using key_lt_irrefl.
    now apply bst_ordered_sorted.
Qed.

(** C8. Whatever the tree and the predicates, every entry of the result
    passes both predicates and the result is the brute-force filter of the
    in-order traversal with some entries possibly left out; on a tree with
    the ordering invariant its keys are strictly ascending. *)
Theorem filter_keys_sound (T : BinarySearchTree K I)
  (filter_func1 filter_func2 : K -> bool) :
  Forall (fun e => filter_func1 (fst e) = true /\ filter_func2 (fst e) = true)
         (filter_keys T filter_func1 filter_func2) /\
  subseq (filter_keys T filter_func1 filter_func2)
         (filter (both filter_func1 filter_func2) (inorder T)) /\
  (bst_ordered (root T) ->
   StronglySorted key_lt (filter_keys T filter_func1 filter_func2)).
Proof.
  pose proof (filter_traverse_subseq (root T) filter_func1 filter_func2) as Hsub.
  repeat split.
  - eapply subseq_Forall; [exact Hsub|].
    eapply Forall_impl; [|apply Forall_filter_true].
    intros e He. now apply andb_true_iff in He.
  - exact Hsub.
  - intros Hord. eapply subseq_StronglySorted; [exact Hsub|].
    eapply subseq_StronglySorted; [apply subseq_filter|].
    now apply bst_ordered_sorted.
Qed.

End BetterBSTClaims.

(** ** The claims about [MinecraftChecklist] *)

Section ChecklistClaims.
Context {K : Type} `{KeyOrder K}.
Variable truediv : Z -> Z -> option K.

(** The smaller and the larger of two keys bound the same keys whichever
    argument comes first. *)
Lemma py_min_comm (a b k : K) : gtb k (py_min a b) = gtb k (py_min b a).
Proof.
  unfold gtb, py_min.
  destruct (ltb b a) eqn:Hba, (ltb a b) eqn:Hab; try reflexivity.
  - rewrite (ltb_asym _ _ Hba) in Hab. discriminate.
  - apply ltb_eqk_l. unfold eqk. now rewrite Hab, Hba.
Qed.

Lemma py_max_comm (a b k : K) : ltb k (py_max a b) = ltb k (py_max b a).
Proof.
  unfold py_max, gtb.
  destruct (ltb b a) eqn:Hba, (ltb a b) eqn:Hab; try reflexivity.
  - rewrite (ltb_asym _ _ Hba) in Hab. discriminate.
  - apply ltb_eqk_r. unfold eqk. now rewrite Hab, Hba.
Qed.

(** C9. Adding a block whose ratio is already a key of the checklist
    returns the checklist as it was: the stored block and the size are
    untouched. *)
Theorem add_block_present (self : MinecraftChecklist K)
  (block : MinecraftBlock) (key : K) :
  ratio truediv block = Some key ->
  contains (checklist self) key = true ->
  add_block truediv self block = Some self.
Proof.
  intros Hratio Hin. unfold add_block. rewrite Hratio. simpl. now rewrite Hin.
Qed.

(** C10. [get_optimal_blocks] returns the same blocks, or raises alike,
    whichever of the two blocks is given first. *)
Theorem get_optimal_blocks_sym (self : MinecraftChecklist K)
  (block1 block2 : MinecraftBlock) :
  get_optimal_blocks truediv self block1 block2
  = get_optimal_blocks truediv self block2 block1.
Proof.
  unfold get_optimal_blocks.
  destruct (ratio truediv block1) as [r1|], (ratio truediv block2) as [r2|];
    simpl; try reflexivity.
  do 2 f_equal. unfold filter_keys. apply filter_traverse_ext; intros k.
  - apply py_min_comm.
  - apply py_max_comm.
Qed.

End ChecklistClaims.

(** ** The claims on concrete inputs *)

(** C4, as the code has it. The scenario's entries are sorted to the keys
    1 to 5 and inserted in the order 3, 1, 2, 4, 5 (the floor median of the
    range 4, 5 is 4); the in-order traversal of the tree is the sorted
    entries and the filter with [k > 1] and [k < 5] gives the entries of 2,
    3 and 4. *)
Theorem scenario_run :
  __sort_elements scenario = scenario_sorted /\
  insertion_order scenario = Some [3; 1; 2; 4; 5] /\
  exists T, __init__ scenario = Some T /\
    inorder T = scenario_sorted /\
    filter_keys T (fun k => gtb k 1) (fun k => ltb k 5)
    = [(2, "b"); (3, "c"); (4, "d")]%string.
Proof.
  split; [reflexivity|]. split; [reflexivity|].
  eexists. split; [vm_compute; reflexivity|]. split; reflexivity.
Qed.

(** C4 as stated: the keys are not inserted in the order 3, 1, 2, 5, 4. *)
Lemma scenario_order_differs :
  insertion_order scenario <> Some [3; 1; 2; 5; 4].
Proof. vm_compute. discriminate. Qed.

(** C5 as stated: on no entries [__init__] signals no error, it returns
    the empty tree. *)
Lemma init_empty_no_error :
  __init__ (@nil (Z * string)) <> None /\
  __init__ (@nil (Z * string)) = Some empty_tree.
Proof. split; [discriminate | reflexivity]. Qed.

(** Outside the data model, which has no repeated keys: on three entries
    of one key both orders build the same tree of one node, and the item
    that the overwriting insertions leave in it is the one assigned last. *)
Remark build_order_repeated_key :
  __build_balanced_tree setitem repeated_key empty_tree
  = Some (mkBST (Node 1 "c" Nil Nil) 1)%string /\
  __build_balanced_tree_swapped setitem repeated_key empty_tree
  = Some (mkBST (Node 1 "a" Nil Nil) 1)%string.
Proof. split; reflexivity. Qed.

(** C1 on the scenario, with the predicates [k > 1] and [k < 5]. *)
Lemma filter_keys_correct_scenario :
  exists T, __init__ scenario = Some T /\
    filter_keys T (fun k => gtb k 1) (fun k => ltb k 5)
    = filter (both (fun k => gtb k 1) (fun k => ltb k 5)) (inorder T) /\
    StronglySorted key_lt (filter_keys T (fun k => gtb k 1) (fun k => ltb k 5)).
Proof.
  apply (filter_keys_correct scenario (fun k => gtb k 1) (fun k => ltb k 5));
    intros x y; unfold gtb; simpl; rewrite !Z.ltb_lt; lia.
Defined.

(** C2 on the scenario. *)
Lemma init_inorder_sorted_scenario :
  exists T, __init__ scenario = Some T /\
    inorder T = __sort_elements scenario /\
    Permutation (inorder T) scenario /\
    StronglySorted key_lt (inorder T) /\
    length T = 5%nat.
Proof. apply (init_inorder_sorted scenario). repeat constructor. Defined.

(** C3 on the scenario: five entries, three levels. *)
Lemma init_height_scenario :
  exists T, __init__ scenario = Some T /\
    height T = 3%nat /\ size_balanced (root T).
Proof. apply (init_height scenario). repeat constructor. Defined.

(** C6 on the scenario's sorted entries. *)
Lemma build_order_irrelevant_scenario :
  exists T,
    __build_balanced_tree setitem scenario_sorted empty_tree = Some T /\
    __build_balanced_tree_swapped setitem scenario_sorted empty_tree = Some T.
Proof. apply (build_order_irrelevant scenario_sorted). repeat constructor. Defined.

(** C8 on a tree of three entries with a predicate that is not monotone:
    the result is still in ascending order. *)
Lemma filter_keys_sound_three_entries :
  StronglySorted key_lt (filter_keys three_entries not_two always).
Proof.
  apply (filter_keys_sound three_entries not_two always).
  simpl. repeat constructor.
Defined.

(** C7 on the scenario: 3 is the one key above 2 and below 4. *)
Lemma filter_keys_boundary_scenario :
  exists T, __init__ scenario = Some T /\
    filter_keys T (fun k => gtb k 2) (fun k => ltb k 4) = [(3, "c")]%string.
Proof.
  destruct (filter_keys_boundary scenario) as (T & HT & _ & _ & Hone).
  exists T. split; [exact HT|].
  vm_compute in HT. injection HT as <-.
  apply Hone.
  - intros x y. unfold gtb. simpl. rewrite !Z.ltb_lt. lia.
  - intros x y. simpl. rewrite !Z.ltb_lt. lia.
  - simpl. auto.
  - reflexivity.
  - intros other Hin Hboth. simpl in Hin.
    repeat (destruct Hin as [<- | Hin]; [try discriminate; reflexivity|]).
    contradiction.
Defined.

(** With that predicate the entry of key 1 is missed: the walk does not
    enter the left subtree of the root. *)
Example filter_keys_can_miss :
  filter_keys three_entries not_two always = [(3, "c")]%string /\
  filter (both not_two always) (inorder three_entries)
  = [(1, "a"); (3, "c")]%string.
Proof. split; reflexivity. Qed.

(** The checklist of the examples is the one built from its blocks. *)
Example three_blocks_init :
  checklist_init Q_truediv [diamond; coal; iron] = Some three_blocks.
Proof. vm_compute. reflexivity. Qed.

(** C9 on that checklist: emerald has the ratio of diamond (5 and 10/2),
    so adding it changes nothing. *)
Lemma add_block_present_emerald :
  add_block Q_truediv three_blocks emerald = Some three_blocks.
Proof.
  apply (add_block_present Q_truediv three_blocks emerald (5 # 1)%Q);
    reflexivity.
Defined.

(** C10 on that checklist: iron alone lies between coal and diamond. *)
Example get_optimal_blocks_coal_diamond :
  get_optimal_blocks Q_truediv three_blocks coal diamond = Some [iron] /\
  get_optimal_blocks Q_truediv three_blocks diamond coal = Some [iron].
Proof. split; reflexivity. Qed.

(** * Further properties *)

Lemma subseq_trans {A} (l1 l2 l3 : list A) :
  subseq l1 l2 -> subseq l2 l3 -> subseq l1 l3.
Proof.
  intros H12 H23. revert l1 H12.
  induction H23 as [|x l2 l3 H23 IH|x l2 l3 H23 IH]; intros l1 H12.
  - assumption.
  - constructor. auto.
  - inversion H12; subst; [apply subseq_skip | apply subseq_keep]; auto.
Qed.

Lemma subseq_map {A B} (f : A -> B) (l1 l2 : list A) :
  subseq l1 l2 -> subseq (map f l1) (map f l2).
Proof. induction 1; simpl; constructor; assumption. Qed.

Lemma subseq_In {A} (l1 l2 : list A) (x : A) :
  subseq l1 l2 -> In x l1 -> In x l2.
Proof.
  induction 1; simpl; intros Hin; auto.
  destruct Hin; auto.
Qed.

(** ** Lookup and insertion *)

Section LookupFacts.
Context {K I : Type} `{KeyOrder K}.

Implicit Types (t : TreeNode K I).

Lemma eqk_refl (x : K) : eqk x x = true.
Proof. unfold eqk. now rewrite ltb_irrefl. Qed.

Lemma eqk_congr_l (x y z : K) : eqk x y = true -> eqk x z = eqk y z.
Proof.
  intros E. unfold eqk.
  now rewrite (ltb_eqk_l x y z E), (ltb_eqk_r x y z E).
Qed.

(** Keys that are equal in the order are looked up alike. *)
Lemma get_aux_eqk t (x y : K) : eqk x y = true -> get_aux t x = get_aux t y.
Proof.
  intros E. induction t as [|k i l IHl r IHr]; simpl; [reflexivity|].
  now rewrite (eqk_congr_l x y k E), (ltb_eqk_l x y k E), IHl, IHr.
Qed.

Lemma get_aux_insert_same t (key : K) (item : I) :
  get_aux (insert_aux t key item) key = Some item.
Proof.
  induction t as [|k i l IHl r IHr]; simpl.
  - now rewrite eqk_refl.
  - unfold gtb. destruct (ltb key k) eqn:Hlt; [|destruct (ltb k key) eqn:Hgt];
      simpl.
    + now rewrite (eqk_false_of_lt _ _ Hlt), Hlt.
    + now rewrite (eqk_false_of_gt _ _ Hgt), Hlt.
    + unfold eqk. now rewrite Hlt, Hgt.
Qed.

(** In an ordered tree every entry of the traversal is found under its
    key. *)
Lemma get_aux_In t (key : K) (item : I) :
  bst_ordered t -> In (key, item) (inorder_aux t) ->
  get_aux t key = Some item.
Proof.
  induction t as [|k i l IHl r IHr]; simpl; [contradiction|].
  intros (Hl & Hr & Bl & Br) Hin.
  apply in_app_or in Hin. destruct Hin as [Hin | [Heq | Hin]].
  - rewrite Forall_forall in Hl. pose proof (Hl _ Hin) as Hlt. simpl in Hlt.
    rewrite (eqk_false_of_lt _ _ Hlt), Hlt. auto.
  - injection Heq as <- <-. now rewrite eqk_refl.
  - rewrite Forall_forall in Hr. pose proof (Hr _ Hin) as Hgt. simpl in Hgt.
    rewrite (eqk_false_of_gt _ _ Hgt), (ltb_asym _ _ Hgt). auto.
Qed.

(** What a lookup finds is an entry of the traversal, under an equal key. *)
Lemma get_aux_Some t (key : K) (item : I) :
  get_aux t key = Some item ->
  exists k, In (k, item) (inorder_aux t) /\ eqk key k = true.
Proof.
  induction t as [|k i l IHl r IHr]; simpl; [discriminate|].
  destruct (eqk key k) eqn:E.
  - intros [= <-]. exists k. split; [apply in_elt | assumption].
  - destruct (ltb key k); intros Hget.
    + destruct (IHl Hget) as (k' & Hin & E'). exists k'. split; [|assumption].
      apply in_or_app. now left.
    + destruct (IHr Hget) as (k' & Hin & E'). exists k'. split; [|assumption].
      apply in_or_app. right. now right.
Qed.

(** In an ordered tree a lookup misses only when no key of the tree is
    equal to the one looked up. *)
Lemma get_aux_None t (key : K) :
  bst_ordered t -> get_aux t key = None ->
  Forall (fun e => eqk key (fst e) = false) (inorder_aux t).
Proof.
  induction t as [|k i l IHl r IHr]; simpl; [constructor|].
  intros (Hl & Hr & Bl & Br).
  destruct (eqk key k) eqn:E; [discriminate|].
  destruct (ltb key k) eqn:Hlt; intros Hget;
    apply Forall_app; split; auto; try constructor; auto.
  - eapply Forall_impl; [|exact Hr]. intros [x v] Hx. simpl in *.
    apply eqk_false_of_lt. eapply ltb_trans; eassumption.
  - assert (Hgt : ltb k key = true).
    { unfold eqk in E. rewrite Hlt in E. simpl in E.
      now apply negb_false_iff in E. }
    eapply Forall_impl; [|exact Hl]. intros [x v] Hx. simpl in *.
    apply eqk_false_of_gt. eapply ltb_trans; eassumption.
Qed.

(** An insertion adds a node exactly when the lookup of its key misses. *)
Lemma size_aux_insert t (key : K) (item : I) :
  size_aux (insert_aux t key item) =
  match get_aux t key with
  | Some _ => size_aux t
  | None => S (size_aux t)
  end.
Proof.
  induction t as [|k i l IHl r IHr]; simpl; [reflexivity|].
  unfold gtb, eqk.
  destruct (ltb key k) eqn:Hlt; [|destruct (ltb k key) eqn:Hgt]; simpl.
  - rewrite IHl. destruct (get_aux l key); lia.
  - rewrite IHr. destruct (get_aux r key); lia.
  - reflexivity.
Qed.

(** The insertion of a key that is not in the tree puts its entry
    somewhere in the traversal and moves nothing else. *)
Lemma inorder_aux_insert_new t (key : K) (item : I) :
  get_aux t key = None ->
  exists l1 l2, inorder_aux t = l1 ++ l2 /\
                inorder_aux (insert_aux t key item) = l1 ++ (key, item) :: l2.
Proof.
  induction t as [|k i l IHl r IHr]; simpl.
  - intros _. now exists [], [].
  - unfold gtb, eqk.
    destruct (ltb key k) eqn:Hlt; [|destruct (ltb k key) eqn:Hgt]; simpl;
      intros Hget; try discriminate.
    + destruct (IHl Hget) as (l1 & l2 & -> & ->).
      exists l1, (l2 ++ (k, i) :: inorder_aux r).
      now rewrite <- !app_assoc.
    + destruct (IHr Hget) as (l1 & l2 & -> & ->).
      exists (inorder_aux l ++ (k, i) :: l1), l2.
      now rewrite <- !app_assoc.
Qed.

Lemma setitem_wf (self : BinarySearchTree K I) (key : K) (item : I) :
  tree_wf self -> tree_wf (setitem key item self).
Proof.
  intros [Hord Hlen]. split; simpl.
  - now apply insert_aux_ordered.
  - rewrite size_aux_insert. unfold contains, getitem.
    destruct (get_aux (root self) key); lia.
Qed.

Lemma init_wf (elements : list (K * I)) :
  exists T, __init__ elements = Some T /\ tree_wf T.
Proof.
  unfold __init__, __build_balanced_tree.
  apply (build_invariant setitem tree_wf)
    with (n := List.length (__sort_elements elements)); simpl; try lia.
  - intros key item self. apply setitem_wf.
  - split; simpl; trivial.
Qed.

Lemma tree_wf_length (self : BinarySearchTree K I) :
  tree_wf self -> length self = List.length (inorder self).
Proof. intros [_ ->]. apply size_aux_inorder. Qed.

End LookupFacts.

(** ** The builder as a sequence of assignments *)

Section AssignFacts.
Context {K I : Type} `{KeyOrder K}.

Lemma preorder_inorder_perm (t : TreeNode K I) :
  Permutation (preorder_aux t) (inorder_aux t).
Proof.
  induction t as [|k i l IHl r IHr]; simpl; [constructor|].
  rewrite <- Permutation_middle. constructor. now rewrite IHl, IHr.
Qed.

(** On a range of valid indices the builder makes the assignments of the
    pre-order of the tree of medians, one after the other. *)
Lemma build_assign {State} (set : K -> I -> State -> State)
  (elements : list (K * I)) n : forall s e self,
  (Z.to_nat (e - s + 1) <= n)%nat ->
  0 <= s -> e < Z.of_nat (List.length elements) ->
  _build_subtree_aux set elements s e self =
  Some (assign_all set (preorder_aux (median_tree elements s e)) self).
Proof.
  induction n as [|n IH]; intros s e self Hn Hs He;
    rewrite build_unfold, median_tree_eq; destruct (s >? e) eqn:E;
    try reflexivity;
    rewrite Z.gtb_ltb in E; apply Z.ltb_ge in E; [lia|].
  pose proof (median_bounds s e E) as Hm.
  destruct (elements_get_Some elements ((s + e) / 2)) as [[k v] Hmid]; [lia|].
  rewrite Hmid, !IH by lia.
  unfold assign_all. simpl. now rewrite fold_left_app.
Qed.

Lemma assign_all_log (order : list (K * I)) (log : list K) :
  assign_all (fun key _ log => log ++ [key]) order log = log ++ map fst order.
Proof.
  revert log. induction order as [|e order IH]; intros log; simpl.
  - now rewrite app_nil_r.
  - unfold assign_all in *. simpl. now rewrite IH, <- app_assoc.
Qed.

Lemma assign_all_wf (order : list (K * I)) (self : BinarySearchTree K I) :
  tree_wf self ->
  tree_wf (assign_all setitem order self) /\
  (length (assign_all setitem order self)
   <= length self + List.length order)%nat.
Proof.
  revert self. induction order as [|e order IH]; intros self Hwf; simpl.
  - split; [assumption | lia].
  - destruct (IH (setitem (fst e) (snd e) self)) as [Hwf' Hlen];
      [now apply setitem_wf|].
    split; [exact Hwf'|].
    unfold assign_all in *. simpl in *.
    destruct (contains self (fst e)); lia.
Qed.

(** The order of the assignments that [__init__] makes. *)
Lemma init_assign (elements : list (K * I)) :
  exists order, Permutation order elements /\
    forall State (set : K -> I -> State -> State) (self : State),
      __build_balanced_tree set (__sort_elements elements) self
      = Some (assign_all set order self).
Proof.
  exists (preorder_aux (median_tree (__sort_elements elements) 0
            (Z.of_nat (List.length (__sort_elements elements)) - 1))).
  split.
  - rewrite preorder_inorder_perm, median_tree_whole.
    apply sort_elements_perm.
  - intros State set self. unfold __build_balanced_tree.
    apply (build_assign set _ (List.length (__sort_elements elements))); lia.
Qed.

End AssignFacts.

(** ** More about [BetterBST] *)

Section BetterBSTExtras.
Context {K I : Type} `{KeyOrder K}.

(** The builder assigns every entry of the input exactly once: the keys
    it inserts, in order, and the tree it returns are those of assigning a
    rearrangement of the input, entry by entry, to the empty tree. *)
Theorem init_assigns_each_entry_once (elements : list (K * I)) :
  exists order, Permutation order elements /\
    insertion_order elements = Some (map fst order) /\
    __init__ elements = Some (assign_all setitem order empty_tree).
Proof.
  destruct (init_assign elements) as (order & Hperm & Hbuild).
  exists order. split; [assumption|]. split.
  - unfold insertion_order. rewrite Hbuild. now rewrite assign_all_log.
  - unfold __init__. apply Hbuild.
Qed.

(** Whatever the input, repeated keys included, the tree that the builder
    returns has the ordering invariant, its recorded size is the number of
    entries of its traversal, and that is at most the number of entries
    given. *)
Theorem init_well_formed (elements : list (K * I)) :
  exists T, __init__ elements = Some T /\
    bst_ordered (root T) /\
    StronglySorted key_lt (inorder T) /\
    length T = List.length (inorder T) /\
    (length T <= List.length elements)%nat.
Proof.
  destruct (init_assign elements) as (order & Hperm & Hbuild).
  destruct (assign_all_wf order (@empty_tree K I)) as [Hwf Hlen];
    [split; simpl; trivial|].
  exists (assign_all setitem order empty_tree).
  split; [unfold __init__; apply Hbuild|].
  split; [apply Hwf|]. split; [apply bst_ordered_sorted, Hwf|].
  split; [now apply tree_wf_length|].
  simpl in Hlen. now rewrite <- (Permutation_length Hperm).
Qed.

(** With distinct keys every entry given to the builder is found again
    under its key; and whatever the input, a key that is equal to no key
    of the input is not found. *)
Theorem init_lookup (elements : list (K * I)) :
  distinct_keys elements ->
  exists T, __init__ elements = Some T /\
    (forall key item, In (key, item) elements -> getitem T key = Some item) /\
    (forall key, (forall e, In e elements -> eqk key (fst e) = false) ->
                 getitem T key = None /\ contains T key = false).
Proof.
  intros Hd. destruct (init_wf elements) as (T & HT & Hord & _).
  exists T. split; [assumption|].
  assert (Hin : inorder T = __sort_elements elements).
  { rewrite (init_median elements Hd) in HT. injection HT as <-.
    unfold inorder; simpl.
    rewrite <- (Permutation_length (sort_elements_perm elements)).
    apply median_tree_whole. }
  split.
  - intros key item Hel. apply get_aux_In; [assumption|].
    fold (inorder T). rewrite Hin.
    eapply Permutation_in; [symmetry; apply sort_elements_perm | assumption].
  - intros key Hnone.
    assert (Hget : getitem T key = None).
    { destruct (getitem T key) as [item|] eqn:Hget; [|reflexivity].
      apply get_aux_Some in Hget. destruct Hget as (k & Hk & E).
      fold (inorder T) in Hk. rewrite Hin in Hk.
      apply (Permutation_in _ (sort_elements_perm elements)) in Hk.
      specialize (Hnone _ Hk). simpl in Hnone. congruence. }
    split; [assumption|]. unfold contains. now rewrite Hget.
Qed.

(** The traversal of the filter leaves what [result] already holds in
    place and puts the entries it selects after it. *)
Theorem filter_traverse_appends (current : TreeNode K I)
  (filter_func1 filter_func2 : K -> bool) (result : list (K * I)) :
  exists selected,
    _filter_traverse_aux current filter_func1 filter_func2 result
    = result ++ selected /\
    subseq selected (inorder_aux current) /\
    Forall (fun e => both filter_func1 filter_func2 e = true) selected.
Proof.
  exists (_filter_traverse_aux current filter_func1 filter_func2 []).
  split; [apply filter_traverse_acc|].
  pose proof (filter_traverse_subseq current filter_func1 filter_func2) as Hs.
  split.
  - eapply subseq_trans; [exact Hs | apply subseq_filter].
  - eapply subseq_Forall; [exact Hs | apply Forall_filter_true].
Qed.

End BetterBSTExtras.

(** ** More about [MinecraftChecklist] *)

Section MapFacts.
Context {A B : Type}.

Lemma mapM_total (f : A -> option B) (g : A -> B) (l : list A) :
  (forall a, In a l -> f a = Some (g a)) -> mapM f l = Some (map g l).
Proof.
  induction l as [|a l IH]; intros Hf; simpl; [reflexivity|].
  rewrite (Hf a) by now left. simpl. rewrite IH; [reflexivity|].
  intros b Hb. apply Hf. now right.
Qed.

Lemma mapM_None (f : A -> option B) (l : list A) :
  mapM f l = None <-> exists a, In a l /\ f a = None.
Proof.
  induction l as [|a l IH]; simpl.
  - split; [discriminate | intros (a & [] & _)].
  - destruct (f a) eqn:Hfa; simpl.
    + destruct (mapM f l); simpl.
      * split; [discriminate|]. intros (x & [<- | Hx] & Hfx); [congruence|].
        exfalso. assert (Hnone : Some l0 = None) by (apply IH; eauto).
        discriminate.
      * split; [|reflexivity]. intros _.
        destruct (proj1 IH eq_refl) as (x & Hx & Hfx). eauto.
    + split; [|reflexivity]. intros _. eauto.
Qed.

Lemma ForallOrdPairs_map (R : B -> B -> Prop) (f : A -> B) (l : list A) :
  ForallOrdPairs (fun a b => R (f a) (f b)) l -> ForallOrdPairs R (map f l).
Proof.
  induction 1 as [|a l Ha _ IH]; simpl; constructor; [|assumption].
  now apply Forall_map.
Qed.

End MapFacts.

Section ChecklistExtras.
Context {K : Type} `{KeyOrder K}.
Variable truediv : Z -> Z -> option K.

(** Blocks are ranked by [rk] when [rk] is the ratio of each of them. *)
Let ranked (rk : MinecraftBlock -> K) (blocks : list MinecraftBlock) : Prop :=
  forall b, In b blocks -> ratio truediv b = Some (rk b).

Lemma sorted_entries_blocks (rk : MinecraftBlock -> K)
  (l : list (K * MinecraftBlock)) :
  StronglySorted key_lt l -> Forall (fun e => fst e = rk (snd e)) l ->
  StronglySorted (fun a b => ltb (rk a) (rk b) = true) (map snd l).
Proof.
  induction 1 as [|e l HS IH He]; intros Hrk; simpl; [constructor|].
  inversion Hrk as [|? ? Hhead Htail]; subst. constructor; [auto|].
  apply Forall_map. rewrite Forall_forall in *.
  intros x Hx. specialize (He x Hx). unfold key_lt in He.
  now rewrite Hhead, (Htail x Hx) in He.
Qed.

(** The checklist built from blocks of distinct ratios. *)
Lemma checklist_init_distinct (rk : MinecraftBlock -> K)
  (blocks : list MinecraftBlock) :
  ranked rk blocks ->
  ForallOrdPairs (fun a b => eqk (rk a) (rk b) = false) blocks ->
  exists T, checklist_init truediv blocks = Some (mkChecklist T) /\
    tree_wf T /\
    Permutation (inorder T) (map (fun b => (rk b, b)) blocks) /\
    length T = List.length blocks.
Proof.
  intros Hrk Hd. unfold checklist_init.
  rewrite (mapM_total _ (fun b => (rk b, b)))
    by (intros b Hb; now rewrite (Hrk b Hb)).
  simpl. set (elements := map (fun b => (rk b, b)) blocks).
  assert (Hde : distinct_keys elements)
    by (apply ForallOrdPairs_map; exact Hd).
  destruct (init_wf elements) as (T & HT & Hwf).
  rewrite HT. simpl. exists T. split; [reflexivity|]. split; [assumption|].
  rewrite (init_median elements Hde) in HT. injection HT as <-.
  unfold inorder; simpl. split; [|apply length_map].
  rewrite <- (Permutation_length (sort_elements_perm elements)).
  rewrite median_tree_whole. apply sort_elements_perm.
Qed.

(** Built from blocks whose ratios are defined and pairwise distinct,
    the checklist holds exactly those blocks: [get_sorted_blocks] returns
    them in strictly ascending order of ratio and the size is their
    number. *)
Theorem checklist_init_sorted (rk : MinecraftBlock -> K)
  (blocks : list MinecraftBlock) :
  (forall b, In b blocks -> ratio truediv b = Some (rk b)) ->
  ForallOrdPairs (fun a b => eqk (rk a) (rk b) = false) blocks ->
  exists self, checklist_init truediv blocks = Some self /\
    Permutation (get_sorted_blocks self) blocks /\
    StronglySorted (fun a b => ltb (rk a) (rk b) = true)
                   (get_sorted_blocks self) /\
    checklist_len self = List.length blocks.
Proof.
  intros Hrk Hd.
  destruct (checklist_init_distinct rk blocks Hrk Hd)
    as (T & HT & Hwf & Hperm & Hlen).
  exists (mkChecklist T). split; [assumption|].
  unfold get_sorted_blocks, checklist_len; simpl. repeat split.
  - rewrite Hperm, map_map. simpl. now rewrite map_id.
  - apply sorted_entries_blocks; [apply bst_ordered_sorted, Hwf|].
    eapply Permutation_Forall; [symmetry; exact Hperm|].
    apply Forall_map, Forall_forall. reflexivity.
  - assumption.
Qed.

(** Every block the checklist was built from is [in] it. *)
Theorem checklist_init_contains (rk : MinecraftBlock -> K)
  (blocks : list MinecraftBlock) :
  (forall b, In b blocks -> ratio truediv b = Some (rk b)) ->
  ForallOrdPairs (fun a b => eqk (rk a) (rk b) = false) blocks ->
  exists self, checklist_init truediv blocks = Some self /\
    forall b, In b blocks -> checklist_contains truediv self b = Some true.
Proof.
  intros Hrk Hd.
  destruct (checklist_init_distinct rk blocks Hrk Hd)
    as (T & HT & Hwf & Hperm & Hlen).
  exists (mkChecklist T). split; [assumption|].
  intros b Hb. unfold checklist_contains, getitem. rewrite (Hrk b Hb). simpl.
  rewrite (get_aux_In (root T) (rk b) b); [|apply Hwf|].
  - unfold block_eq. now rewrite String.eqb_refl.
  - eapply Permutation_in; [symmetry; exact Hperm|].
    apply in_map_iff. eauto.
Qed.

(** The constructor raises exactly when the ratio of one of the blocks
    raises (a block of hardness zero). *)
Theorem checklist_init_error (blocks : list MinecraftBlock) :
  checklist_init truediv blocks = None <->
  exists b, In b blocks /\ ratio truediv b = None.
Proof.
  unfold checklist_init.
  destruct (mapM _ blocks) as [elements|] eqn:Hmap; simpl.
  - destruct (init_wf elements) as (T & -> & _). simpl.
    split; [discriminate|]. intros (b & Hb & Hnone).
    assert (Hfail : mapM (fun block => r <- ratio truediv block ;; Some (r, block))
                      blocks = None)
      by (apply mapM_None; exists b; split; [assumption | now rewrite Hnone]).
    congruence.
  - split; [|reflexivity]. intros _.
    apply mapM_None in Hmap. destruct Hmap as (b & Hb & Hnone).
    exists b. split; [assumption|].
    destruct (ratio truediv b); [discriminate | reflexivity].
Qed.

(** The constructor returns a well-formed tree, [add_block] keeps the
    tree well formed, and on a well-formed tree the size of the checklist
    is the number of blocks that [get_sorted_blocks] returns. *)
Theorem checklist_size_invariant :
  (forall blocks self,
      checklist_init truediv blocks = Some self -> tree_wf (checklist self)) /\
  (forall self block self',
      tree_wf (checklist self) -> add_block truediv self block = Some self' ->
      tree_wf (checklist self')) /\
  (forall self : MinecraftChecklist K,
      tree_wf (checklist self) ->
      checklist_len self = List.length (get_sorted_blocks self)).
Proof.
  split; [|split].
  - intros blocks self. unfold checklist_init.
    destruct (mapM _ blocks) as [elements|]; simpl; [|discriminate].
    destruct (init_wf elements) as (T & -> & Hwf). simpl.
    intros [= <-]. exact Hwf.
  - intros self block self' Hwf. unfold add_block.
    destruct (ratio truediv block) as [key|]; simpl; [|discriminate].
    intros [= <-]. destruct (contains (checklist self) key); simpl;
      [assumption | now apply setitem_wf].
  - intros self Hwf. unfold checklist_len, get_sorted_blocks.
    rewrite length_map. now apply tree_wf_length.
Qed.

End ChecklistExtras.

Section ChecklistQueries.
Context {K : Type} `{KeyOrder K}.
Variable truediv : Z -> Z -> option K.

Lemma gtb_lower_monotone (lower : K) : monotone_lower (fun k => gtb k lower).
Proof. intros x y Hxy Hx. unfold gtb in *. eapply ltb_trans; eassumption. Qed.

Lemma ltb_upper_monotone (upper : K) : monotone_upper (fun k => ltb k upper).
Proof. intros x y Hxy Hy. eapply ltb_trans; eassumption. Qed.




(** Adding a block whose ratio is not yet a key of the checklist puts the
    block in: the size grows by one, [get_sorted_blocks] returns the block
    with the blocks it returned before, and the block is [in] the
    checklist. *)
Theorem add_block_new (self : MinecraftChecklist K)
  (block : MinecraftBlock) (key : K) :
  ratio truediv block = Some key ->
  contains (checklist self) key = false ->
  exists self', add_block truediv self block = Some self' /\
    checklist_len self' = S (checklist_len self) /\
    Permutation (get_sorted_blocks self') (block :: get_sorted_blocks self) /\
    checklist_contains truediv self' block = Some true.
Proof.
  intros Hratio Hnew. unfold add_block. rewrite Hratio. simpl. rewrite Hnew.
  simpl. eexists. split; [reflexivity|].
  assert (Hget : get_aux (root (checklist self)) key = None).
  { unfold contains, getitem in Hnew.
    destruct (get_aux (root (checklist self)) key); [discriminate | reflexivity]. }
  repeat split.
  - unfold checklist_len. simpl. now rewrite Hnew.
  - unfold get_sorted_blocks, inorder. simpl.
    destruct (inorder_aux_insert_new _ key block Hget) as (l1 & l2 & -> & ->).
    rewrite !map_app. simpl. symmetry. apply Permutation_middle.
  - unfold checklist_contains, getitem. rewrite Hratio. simpl.
    rewrite get_aux_insert_same. unfold block_eq. now rewrite String.eqb_refl.
Qed.

(** On an ordered checklist a block is [in] it exactly when the tree
    holds, under a key equal to the block's ratio, a block of the same
    name. *)
Theorem checklist_contains_iff (self : MinecraftChecklist K)
  (block : MinecraftBlock) (r : K) :
  bst_ordered (root (checklist self)) ->
  ratio truediv block = Some r ->
  (checklist_contains truediv self block = Some true <->
   exists key stored, In (key, stored) (inorder (checklist self)) /\
                      eqk r key = true /\ name stored = name block).
Proof.
  intros Hord Hratio. unfold checklist_contains, getitem. rewrite Hratio.
  simpl. split.
  - destruct (get_aux (root (checklist self)) r) as [found|] eqn:Hget;
      [|discriminate].
    intros [= Heq]. apply get_aux_Some in Hget.
    destruct Hget as (key & Hin & E). exists key, found.
    repeat split; try assumption. now apply String.eqb_eq.
  - intros (key & stored & Hin & E & Hname).
    rewrite (get_aux_eqk _ r key E), (get_aux_In _ key stored Hord Hin).
    unfold block_eq. rewrite Hname. now rewrite String.eqb_refl.
Qed.

(** On an ordered checklist [get_optimal_blocks] returns, in the order of
    [get_sorted_blocks], exactly the blocks stored under the keys strictly
    between the smaller and the larger of the two ratios. *)
Theorem get_optimal_blocks_between (self : MinecraftChecklist K)
  (block1 block2 : MinecraftBlock) (r1 r2 : K) :
  bst_ordered (root (checklist self)) ->
  ratio truediv block1 = Some r1 -> ratio truediv block2 = Some r2 ->
  get_optimal_blocks truediv self block1 block2
  = Some (map snd
            (filter (fun e => ltb (py_min r1 r2) (fst e)
                              && ltb (fst e) (py_max r1 r2))
                    (inorder (checklist self)))) /\
  exists optimal,
    get_optimal_blocks truediv self block1 block2 = Some optimal /\
    subseq optimal (get_sorted_blocks self).
Proof.
  intros Hord H1 H2.
  assert (Heq : get_optimal_blocks truediv self block1 block2
                = Some (map snd
                     (filter (fun e => ltb (py_min r1 r2) (fst e)
                                       && ltb (fst e) (py_max r1 r2))
                             (inorder (checklist self))))).
  { unfold get_optimal_blocks. rewrite H1, H2. simpl. unfold filter_keys.
    rewrite filter_traverse_exact;
      auto using gtb_lower_monotone, ltb_upper_monotone. }
  split; [exact Heq|]. eexists. split; [exact Heq|].
  apply subseq_map, subseq_filter.
Qed.


End ChecklistQueries.

(** ** The miner *)

Lemma fold_mine (blocks : list MinecraftBlock) (self : Miner) :
  fold_left mine blocks self
  = mkMiner (miner_name self) (inventory self ++ map item blocks).
Proof.
  revert self. induction blocks as [|b blocks IH]; intros self; simpl.
  - rewrite app_nil_r. now destruct self.
  - rewrite IH. simpl. now rewrite <- app_assoc.
Qed.

(** After mining some blocks, [clear_inventory] returns what the miner
    held before followed by the items of the blocks in the order they were
    mined, keeps the miner's name and leaves the miner with nothing: a
    second call returns the empty inventory. *)
Theorem mine_then_clear (self : Miner) (blocks : list MinecraftBlock) :
  let (old_inventory, emptied) := clear_inventory (fold_left mine blocks self) in
  old_inventory = inventory self ++ map item blocks /\
  miner_name emptied = miner_name self /\
  inventory emptied = [] /\
  fst (clear_inventory emptied) = [].
Proof. rewrite fold_mine. simpl. auto. Qed.

(** ** The sort with a key that may raise *)

Section RaisingSortFacts.
Context {K A : Type} `{KeyOrder K}.
Variables (key : A -> option K) (f : A -> K).

Lemma merge_raise_nil_l (l : list A) : merge_raise key [] l = Some l.
Proof. now destruct l. Qed.

Lemma merge_raise_nil_r (l : list A) : merge_raise key l [] = Some l.
Proof. now destruct l. Qed.

Lemma merge_raise_cons (a1 a2 : A) (l1 l2 : list A) :
  merge_raise key (a1 :: l1) (a2 :: l2) =
  k2 <- key a2 ;;
  k1 <- key a1 ;;
  if ltb k2 k1
  then rest <- merge_raise key (a1 :: l1) l2 ;; Some (a2 :: rest)
  else rest <- merge_raise key l1 (a2 :: l2) ;; Some (a1 :: rest).
Proof. reflexivity. Qed.

(** Where every key is defined the two merges agree. *)
Lemma merge_raise_total (l1 l2 : list A) :
  Forall (fun a => key a = Some (f a)) l1 ->
  Forall (fun a => key a = Some (f a)) l2 ->
  merge_raise key l1 l2 = Some (merge f l1 l2).
Proof.
  intros H1. revert l2. induction H1 as [|a1 l1 Ha1 H1 IH1]; intros l2 H2.
  - now rewrite merge_raise_nil_l, merge_nil_l.
  - induction H2 as [|a2 l2 Ha2 H2 IH2].
    + now rewrite merge_raise_nil_r, merge_nil_r.
    + rewrite merge_raise_cons, merge_cons, Ha1, Ha2. cbn [bind].
      destruct (ltb (f a2) (f a1)).
      * now rewrite IH2.
      * rewrite IH1 by now constructor. reflexivity.
Qed.

Lemma mergesort_raise_eq (l : list A) :
  mergesort_raise l key =
  if (List.length l <=? 1)%nat then Some l
  else match mergesort_raise (firstn (List.length l / 2) l) key with
       | None => None
       | Some l1 =>
           match mergesort_raise (skipn (List.length l / 2) l) key with
           | None => None
           | Some l2 => merge_raise key l1 l2
           end
       end.
Proof.
  rewrite mergesort_raise_equation_1.
  destruct (le_lt_dec (List.length l) 1) as [Hle | Hgt]; simpl.
  - apply Nat.leb_le in Hle. now rewrite Hle.
  - destruct (List.length l <=? 1)%nat eqn:E;
      [apply Nat.leb_le in E; lia | reflexivity].
Qed.

(** Where every key is defined the sort raises nothing and sorts as the
    sort with the total key does. *)
Lemma mergesort_raise_total (n : nat) : forall l,
  (List.length l <= n)%nat ->
  Forall (fun a => key a = Some (f a)) l ->
  mergesort_raise l key = Some (mergesort l f).
Proof.
  induction n as [|n IH]; intros l Hn Hl;
    rewrite mergesort_raise_eq, mergesort_eq;
    destruct (List.length l <=? 1)%nat eqn:E; try reflexivity;
    apply Nat.leb_gt in E; [lia|].
  assert (0 < List.length l / 2 < List.length l)%nat as Hhalf
    by (split; [apply Nat.div_str_pos | apply Nat.div_lt]; lia).
  pose proof Hl as Hsplit.
  rewrite <- (firstn_skipn (List.length l / 2) l) in Hsplit.
  apply Forall_app in Hsplit. destruct Hsplit as [Hfst Hsnd].
  rewrite (IH (firstn _ l)), (IH (skipn _ l));
    try assumption; [|rewrite length_skipn; lia | rewrite length_firstn; lia].
  apply merge_raise_total.
  - eapply Permutation_Forall; [symmetry; apply mergesort_perm | assumption].
  - eapply Permutation_Forall; [symmetry; apply mergesort_perm | assumption].
Qed.

(** A list of fewer than two entries is returned as it is, whatever its
    key does. *)
Lemma mergesort_raise_short (l : list A) :
  (List.length l <= 1)%nat -> mergesort_raise l key = Some l.
Proof.
  intros Hl. rewrite mergesort_raise_eq. apply Nat.leb_le in Hl.
  now rewrite Hl.
Qed.

End RaisingSortFacts.

(** ** The game *)

Lemma StronglySorted_weaken {A} (R R' : A -> A -> Prop) (l : list A) :
  (forall a b, R a b -> R' a b) -> StronglySorted R l -> StronglySorted R' l.
Proof.
  intros HR. induction 1 as [|a l HS IH Ha]; constructor; [assumption|].
  eapply Forall_impl; [apply HR | exact Ha].
Qed.

Section GameFacts.
Context {K : Type} `{KeyOrder K} {CaveSystem : Type}.
Variable truediv : Z -> Z -> option K.
Variable neg : K -> K.
Variable random_shuffle : list MinecraftBlock -> list MinecraftBlock.
Variable heap_order : list MinecraftBlock -> option (list MinecraftBlock).

Implicit Types (self : NotMinecraft K CaveSystem).

Lemma block_in_iff (block : MinecraftBlock) (array : list MinecraftBlock) :
  block_in block array = true <->
  exists other, In other array /\ name other = name block.
Proof.
  unfold block_in, block_eq. rewrite existsb_exists.
  split; intros (other & Hin & Heq); exists other; split; auto;
    now apply String.eqb_eq.
Qed.

(** On an ordered checklist [objective_mining_filter] keeps, in their
    order, the given blocks that bear the name of a block the checklist
    holds under a key strictly between the two ratios; the ratio of a given
    block itself plays no part. *)
Theorem objective_mining_filter_spec self (blocks : list MinecraftBlock)
  (block1 block2 : MinecraftBlock) (r1 r2 : K) :
  bst_ordered (root (checklist (game_checklist self))) ->
  ratio truediv block1 = Some r1 -> ratio truediv block2 = Some r2 ->
  exists kept,
    objective_mining_filter truediv self blocks block1 block2 = Some kept /\
    subseq kept blocks /\
    forall b, In b kept <->
      In b blocks /\
      exists key stored,
        In (key, stored) (inorder (checklist (game_checklist self))) /\
        ltb (py_min r1 r2) key = true /\ ltb key (py_max r1 r2) = true /\
        name stored = name b.
Proof.
  intros Hord H1 H2. unfold objective_mining_filter, get_optimal_blocks.
  rewrite H1, H2. simpl. eexists. split; [reflexivity|].
  split; [apply subseq_filter|].
  intros b. rewrite filter_In, block_in_iff. unfold filter_keys.
  rewrite filter_traverse_exact;
    auto using gtb_lower_monotone, ltb_upper_monotone.
  apply and_iff_compat_l. split.
  - intros (other & Hin & Hname). apply in_map_iff in Hin.
    destruct Hin as ([key stored] & <- & Hin). apply filter_In in Hin.
    destruct Hin as [Hin Hboth]. apply andb_true_iff in Hboth.
    destruct Hboth as [Hlo Hhi]. exists key, stored.
    repeat split; assumption.
  - intros (key & stored & Hin & Hlo & Hhi & Hname).
    exists stored. split; [|assumption].
    apply in_map_iff. exists (key, stored). split; [reflexivity|].
    apply filter_In. split; [assumption|].
    unfold both, gtb. simpl. now rewrite Hlo, Hhi.
Qed.

(** The run of [objective_mining] when the ratio of every block is
    defined. *)
Lemma objective_mining_run self (blocks : list MinecraftBlock)
  (rk : MinecraftBlock -> K) :
  (forall b, In b blocks -> ratio truediv b = Some (rk b)) ->
  objective_mining truediv neg self blocks
  = Some (mined_more self (mergesort blocks (fun b => neg (rk b)))).
Proof.
  intros Hrk. unfold objective_mining.
  rewrite (mergesort_raise_total _ (fun b => neg (rk b)) (List.length blocks))
    by (try lia; apply Forall_forall; intros b Hb; now rewrite (Hrk b Hb)).
  simpl. now rewrite fold_mine.
Qed.

(** Sorting by the negated ratio puts the blocks in descending order of
    ratio. *)
Lemma mergesort_neg_descending (blocks : list MinecraftBlock)
  (rk : MinecraftBlock -> K) :
  (forall a b, ltb (neg a) (neg b) = ltb b a) ->
  Permutation (mergesort blocks (fun b => neg (rk b))) blocks /\
  StronglySorted (fun a b => ltb (rk a) (rk b) = false)
                 (mergesort blocks (fun b => neg (rk b))).
Proof.
  intros Hneg. split; [apply mergesort_perm|].
  pose proof (mergesort_sorted (fun b => neg (rk b)) blocks) as HS.
  eapply StronglySorted_weaken; [|exact HS].
  intros a b. simpl. now rewrite Hneg.
Qed.

(** When the ratio of every block is defined, [objective_mining] mines
    all the blocks, each once, in descending order of ratio: the miner's
    inventory grows by their items in that order, and nothing else
    changes. *)
Theorem objective_mining_descending self (blocks : list MinecraftBlock)
  (rk : MinecraftBlock -> K) :
  (forall a b, ltb (neg a) (neg b) = ltb b a) ->
  (forall b, In b blocks -> ratio truediv b = Some (rk b)) ->
  exists mined,
    objective_mining truediv neg self blocks = Some (mined_more self mined) /\
    Permutation mined blocks /\
    StronglySorted (fun a b => ltb (rk a) (rk b) = false) mined.
Proof.
  intros Hneg Hrk. exists (mergesort blocks (fun b => neg (rk b))).
  split; [now apply objective_mining_run|].
  now apply mergesort_neg_descending.
Qed.

(** When [objective_mining_filter] returns and the ratio of every block
    it keeps is defined, [objective_mining_summary] mines the kept blocks,
    each once, in descending order of ratio, however the shuffle rearranges
    them; the blocks that the filter drops need no ratio. *)
Theorem objective_mining_summary_spec self
  (blocks kept : list MinecraftBlock) (block1 block2 : MinecraftBlock)
  (rk : MinecraftBlock -> K) :
  (forall a b, ltb (neg a) (neg b) = ltb b a) ->
  (forall l, Permutation (random_shuffle l) l) ->
  objective_mining_filter truediv self blocks block1 block2 = Some kept ->
  (forall b, In b kept -> ratio truediv b = Some (rk b)) ->
  exists mined,
    objective_mining_summary truediv neg random_shuffle self blocks
      block1 block2 = Some (mined_more self mined) /\
    Permutation mined kept /\
    StronglySorted (fun a b => ltb (rk a) (rk b) = false) mined.
Proof.
  intros Hneg Hshuffle Hfilter Hrk. unfold objective_mining_summary.
  rewrite Hfilter. simpl. unfold chicken_jockey_attack.
  destruct (mergesort_neg_descending (random_shuffle kept) rk Hneg)
    as [Hperm Hsorted].
  exists (mergesort (random_shuffle kept) (fun b => neg (rk b))).
  split; [|split; [|exact Hsorted]].
  - apply objective_mining_run. intros b Hb. apply Hrk.
    eapply Permutation_in; [apply Hshuffle | exact Hb].
  - now rewrite Hperm.
Qed.

Lemma profit_loop_spec (block_heap : list MinecraftBlock) :
  forall (remaining_time : Z) (m : Miner),
    0 <= remaining_time ->
    exists mined,
      subseq mined block_heap /\
      profit_loop block_heap remaining_time m
      = mkMiner (miner_name m) (inventory m ++ map item mined) /\
      total_hardness mined <= remaining_time.
Proof.
  induction block_heap as [|block rest IH]; intros remaining_time m Htime; simpl.
  - exists []. simpl. rewrite app_nil_r. destruct m.
    repeat split; [constructor | assumption].
  - destruct (remaining_time >? 0) eqn:Hpos.
    + destruct (hardness block <=? remaining_time) eqn:Hfit.
      * apply Z.leb_le in Hfit.
        destruct (remaining_time - hardness block =? 0) eqn:Hzero.
        -- apply Z.eqb_eq in Hzero. exists [block]. simpl.
           repeat split; [apply subseq_keep, subseq_nil_l | lia].
        -- destruct (IH (remaining_time - hardness block) (mine m block))
             as (mined & Hsub & -> & Hsum); [lia|].
           exists (block :: mined). simpl.
           repeat split; [now apply subseq_keep | | lia].
           now rewrite <- app_assoc.
      * destruct (IH remaining_time m Htime) as (mined & Hsub & -> & Hsum).
        exists mined. repeat split; [now apply subseq_skip | assumption].
    + exists []. simpl. rewrite app_nil_r. destruct m.
      repeat split; [apply subseq_nil_l | assumption].
Qed.

Lemma profit_loop_no_time (block_heap : list MinecraftBlock)
  (remaining_time : Z) (m : Miner) :
  remaining_time <= 0 -> profit_loop block_heap remaining_time m = m.
Proof.
  intros Htime. destruct block_heap as [|block rest]; simpl; [reflexivity|].
  destruct (remaining_time >? 0) eqn:Hpos; [|reflexivity].
  apply Z.gtb_lt in Hpos. lia.
Qed.

(** [profit_mining] never mines past the time it is given: the blocks it
    mines are some of those the heap hands out, in that order, their
    hardness adds up to at most [time_in_seconds], and with no time at all
    nothing is mined. *)
Theorem profit_mining_budget self (blocks order : list MinecraftBlock)
  (time_in_seconds : Z) :
  heap_order blocks = Some order ->
  exists mined,
    profit_mining heap_order self blocks time_in_seconds
    = Some (mined_more self mined) /\
    subseq mined order /\
    (time_in_seconds <= 0 -> mined = []) /\
    (0 <= time_in_seconds -> total_hardness mined <= time_in_seconds).
Proof.
  intros Horder. unfold profit_mining. rewrite Horder. simpl.
  destruct (Z_le_gt_dec time_in_seconds 0) as [Hno | Hsome].
  - exists []. rewrite profit_loop_no_time by assumption.
    unfold mined_more. simpl. rewrite app_nil_r.
    repeat split; [now destruct (miner self) | apply subseq_nil_l | simpl; lia].
  - destruct (profit_loop_spec order time_in_seconds (miner self))
      as (mined & Hsub & -> & Hsum); [lia|].
    exists mined. repeat split; [assumption | lia | intros _; assumption].
Qed.

End GameFacts.

(** ** The further properties on concrete inputs *)

Lemma Qltb_opp (a b : Q) : ltb (Qopp a) (Qopp b) = ltb b a.
Proof.
  simpl. destruct (Qltb b a) eqn:E.
  - apply Qltb_lt. apply Qltb_lt in E. now apply Qopp_lt_compat.
  - apply not_true_iff_false. intros E'. apply not_true_iff_false in E.
    apply E. apply Qltb_lt. apply Qltb_lt in E'.
    apply Qopp_lt_compat in E'. now rewrite !Qopp_involutive in E'.
Qed.

Lemma three_blocks_ranked (b : MinecraftBlock) :
  In b [coal; diamond; iron] -> ratio Q_truediv b = Some (Q_ratio b).
Proof. intros [<- | [<- | [<- | []]]]; reflexivity. Qed.

(** Every entry of the scenario is found again under its key. *)
Lemma init_lookup_scenario :
  exists T, __init__ scenario = Some T /\
    (forall key item, In (key, item) scenario -> getitem T key = Some item) /\
    (forall key, (forall e, In e scenario -> eqk key (fst e) = false) ->
                 getitem T key = None /\ contains T key = false).
Proof. apply (init_lookup scenario). repeat constructor. Defined.

(** The checklist of diamond, coal and iron lists coal, iron, diamond. *)
Lemma checklist_init_sorted_three :
  exists self, checklist_init Q_truediv [diamond; coal; iron] = Some self /\
    Permutation (get_sorted_blocks self) [diamond; coal; iron] /\
    StronglySorted (fun a b => ltb (Q_ratio a) (Q_ratio b) = true)
                   (get_sorted_blocks self) /\
    checklist_len self = 3%nat.
Proof.
  apply (checklist_init_sorted Q_truediv Q_ratio [diamond; coal; iron]).
  - intros b [<- | [<- | [<- | []]]]; reflexivity.
  - repeat constructor.
Defined.

Lemma checklist_init_contains_three :
  exists self, checklist_init Q_truediv [diamond; coal; iron] = Some self /\
    forall b, In b [diamond; coal; iron] ->
              checklist_contains Q_truediv self b = Some true.
Proof.
  apply (checklist_init_contains Q_truediv Q_ratio [diamond; coal; iron]).
  - intros b [<- | [<- | [<- | []]]]; reflexivity.
  - repeat constructor.
Defined.

(** Gold, of ratio 2, is new to the checklist of the examples. *)
Lemma add_block_new_gold :
  exists self', add_block Q_truediv three_blocks gold = Some self' /\
    checklist_len self' = 4%nat /\
    Permutation (get_sorted_blocks self') (gold :: get_sorted_blocks three_blocks) /\
    checklist_contains Q_truediv self' gold = Some true.
Proof.
  apply (add_block_new Q_truediv three_blocks gold (2 # 1)%Q); reflexivity.
Defined.

(** Emerald has the ratio of diamond and another name: it is not [in] the
    checklist of the examples. *)
Lemma checklist_contains_iff_emerald :
  checklist_contains Q_truediv three_blocks emerald = Some true <->
  exists key stored, In (key, stored) (inorder (checklist three_blocks)) /\
                     eqk (5 # 1)%Q key = true /\ name stored = name emerald.
Proof.
  apply (checklist_contains_iff Q_truediv three_blocks emerald (5 # 1)%Q).
  - simpl. repeat constructor.
  - reflexivity.
Defined.

Lemma get_optimal_blocks_between_coal_diamond :
  get_optimal_blocks Q_truediv three_blocks coal diamond
  = Some (map snd
            (filter (fun e => ltb (py_min (4 # 4) (10 # 2))%Q (fst e)
                              && ltb (fst e) (py_max (4 # 4) (10 # 2))%Q)
                    (inorder (checklist three_blocks)))) /\
  exists optimal,
    get_optimal_blocks Q_truediv three_blocks coal diamond = Some optimal /\
    subseq optimal (get_sorted_blocks three_blocks).
Proof.
  apply (get_optimal_blocks_between Q_truediv three_blocks coal diamond).
  - simpl. repeat constructor.
  - reflexivity.
  - reflexivity.
Defined.


(** Between coal and diamond the checklist holds iron: of the blocks
    found, the two named iron are kept, whatever their own ratio. *)
Lemma objective_mining_filter_irons :
  exists kept,
    objective_mining_filter Q_truediv three_blocks_game
      [fools_iron; diamond; iron] coal diamond = Some kept /\
    subseq kept [fools_iron; diamond; iron] /\
    forall b, In b kept <->
      In b [fools_iron; diamond; iron] /\
      exists key stored,
        In (key, stored) (inorder (checklist three_blocks)) /\
        ltb (py_min (4 # 4) (10 # 2))%Q key = true /\
        ltb key (py_max (4 # 4) (10 # 2))%Q = true /\
        name stored = name b.
Proof.
  apply (objective_mining_filter_spec Q_truediv three_blocks_game
           [fools_iron; diamond; iron] coal diamond).
  - simpl. repeat constructor.
  - reflexivity.
  - reflexivity.
Defined.

Example objective_mining_filter_irons_value :
  objective_mining_filter Q_truediv three_blocks_game
    [fools_iron; diamond; iron] coal diamond = Some [fools_iron; iron].
Proof. reflexivity. Qed.

Lemma objective_mining_descending_three :
  exists mined,
    objective_mining Q_truediv Qopp three_blocks_game [coal; diamond; iron]
    = Some (mined_more three_blocks_game mined) /\
    Permutation mined [coal; diamond; iron] /\
    StronglySorted (fun a b => ltb (Q_ratio a) (Q_ratio b) = false) mined.
Proof.
  apply (objective_mining_descending Q_truediv Qopp three_blocks_game
           [coal; diamond; iron] Q_ratio).
  - exact Qltb_opp.
  - intros b [<- | [<- | [<- | []]]]; reflexivity.
Defined.

Example objective_mining_three_value :
  option_map (fun game => inventory (miner game))
    (objective_mining Q_truediv Qopp three_blocks_game [coal; diamond; iron])
  = Some [item diamond; item iron; item coal].
Proof. reflexivity. Qed.

(** The summary with a shuffle that reverses the list: of the blocks
    found, bedrock has no ratio and is dropped by the filter, and the two
    blocks named iron are mined, the better one first. *)
Lemma objective_mining_summary_three :
  exists mined,
    objective_mining_summary Q_truediv Qopp (@rev MinecraftBlock)
      three_blocks_game [bedrock; iron; fools_iron; coal] coal diamond
    = Some (mined_more three_blocks_game mined) /\
    Permutation mined [iron; fools_iron] /\
    StronglySorted (fun a b => ltb (Q_ratio a) (Q_ratio b) = false) mined.
Proof.
  apply (objective_mining_summary_spec Q_truediv Qopp (@rev MinecraftBlock)
           three_blocks_game [bedrock; iron; fools_iron; coal]
           [iron; fools_iron] coal diamond Q_ratio).
  - exact Qltb_opp.
  - intros l. symmetry. apply Permutation_rev.
  - reflexivity.
  - intros b [<- | [<- | []]]; reflexivity.
Defined.

Example objective_mining_summary_three_value :
  option_map (fun game => inventory (miner game))
    (objective_mining_summary Q_truediv Qopp (@rev MinecraftBlock)
       three_blocks_game [bedrock; iron; fools_iron; coal] coal diamond)
  = Some [item iron; item fools_iron].
Proof. reflexivity. Qed.

(** Three seconds are enough for diamond (2) and iron (1), not for coal. *)
Lemma profit_mining_budget_three :
  exists mined,
    profit_mining Q_heap_order three_blocks_game [coal; diamond; iron] 3
    = Some (mined_more three_blocks_game mined) /\
    subseq mined [diamond; iron; coal] /\
    (3 <= 0 -> mined = []) /\
    (0 <= 3 -> total_hardness mined <= 3).
Proof.
  apply (profit_mining_budget Q_heap_order three_blocks_game
           [coal; diamond; iron] [diamond; iron; coal] 3).
  reflexivity.
Defined.

Example profit_mining_three_value :
  option_map (fun game => inventory (miner game))
    (profit_mining Q_heap_order three_blocks_game [coal; diamond; iron] 3)
  = Some [item diamond; item iron].
Proof. reflexivity. Qed.

(** ** The exploration of the cave *)

Section CaveFacts.
Variable cave : list CaveNode.

Lemma dfs_loop_eq visited blocks_found stack :
  dfs_loop cave visited blocks_found stack =
  match stack with
  | [] => Some blocks_found
  | ref :: stack =>
      match nth_error cave ref with
      | None => None
      | Some current_node =>
          if name_in (node_name current_node) visited
          then dfs_loop cave visited blocks_found stack
          else
            match push_unvisited cave (node_name current_node :: visited)
                    (rev (neighbours current_node)) stack with
            | None => None
            | Some stack' =>
                dfs_loop cave (node_name current_node :: visited)
                  (blocks_found ++ node_blocks current_node) stack'
            end
      end
  end.
Proof.
  destruct stack as [|ref stack]; [now simp dfs_loop|].
  simp dfs_loop.
  destruct (inspect (nth_error cave ref)) as [[node|] Hnode]; simpl;
    rewrite Hnode; [|reflexivity].
  destruct (inspect (name_in (node_name node) visited)) as [[|] Hnew]; simpl;
    rewrite Hnew; [reflexivity|].
  destruct (inspect (push_unvisited cave (node_name node :: visited)
                       (rev (neighbours node)) stack)) as [[stack'|] Hpush];
    simpl; rewrite Hpush; reflexivity.
Qed.

(** With references into the store the loop over the neighbours raises
    nothing and pushes the unvisited ones, the last one first. *)
Lemma push_unvisited_spec visited reversed : forall stack,
  Forall (fun m => m < List.length cave)%nat reversed ->
  push_unvisited cave visited reversed stack
  = Some (rev (filter (unvisited cave visited) reversed) ++ stack).
Proof.
  induction reversed as [|m rs IH]; intros stack Hvalid; simpl; [reflexivity|].
  inversion Hvalid as [|? ? Hm Hrs]; subst.
  unfold unvisited at 1, name_at.
  destruct (nth_error cave m) as [node|] eqn:Hnode;
    [|apply nth_error_None in Hnode; lia].
  destruct (negb (name_in (node_name node) visited)); rewrite IH by assumption;
    [simpl; now rewrite <- app_assoc | reflexivity].
Qed.

Lemma name_in_cons (n x : string) (visited : list string) :
  name_in x (n :: visited) = false ->
  x <> n /\ name_in x visited = false.
Proof.
  unfold name_in. simpl. intros Hx. apply orb_false_iff in Hx.
  destruct Hx as [Hne Hx]. split; [|assumption].
  intros ->. now rewrite String.eqb_refl in Hne.
Qed.

Lemma seen_shift visited order ref m :
  seen cave (name_at cave ref :: visited) order m ->
  seen cave visited (ref :: order) m.
Proof.
  unfold seen, name_in. simpl. intros [Hin | Hin]; [|auto].
  apply orb_true_iff in Hin. destruct Hin as [Heq | Hin]; [|auto].
  apply String.eqb_eq in Heq. auto.
Qed.

Lemma name_at_node ref node :
  nth_error cave ref = Some node -> name_at cave ref = node_name node.
Proof. unfold name_at. now intros ->. Qed.

Lemma neighbours_at_node ref node :
  nth_error cave ref = Some node -> neighbours_at cave ref = neighbours node.
Proof. unfold neighbours_at. now intros ->. Qed.

Lemma blocks_at_node ref node :
  nth_error cave ref = Some node -> blocks_at cave ref = node_blocks node.
Proof. unfold blocks_at. now intros ->. Qed.

Lemma dfs_loop_explores : cave_closed cave ->
  forall n visited blocks_found stack,
    (dfs_measure cave visited stack <= n)%nat ->
    Forall (fun s => s < List.length cave)%nat stack ->
    exists order,
      dfs_loop cave visited blocks_found stack
      = Some (blocks_found ++ flat_map (blocks_at cave) order) /\
      explores cave visited stack order.
Proof.
  intros Hclosed. induction n as [|n IH]; intros visited found stack Hn Hvalid;
    rewrite dfs_loop_eq; destruct stack as [|ref stack];
    try (exists []; simpl; rewrite app_nil_r; split; [reflexivity|];
         repeat split; try constructor; discriminate);
    [unfold dfs_measure in Hn; simpl in Hn; lia|].
  inversion Hvalid as [|? ? Href Hstack]; subst.
  destruct (nth_error cave ref) as [node|] eqn:Hnode;
    [|apply nth_error_None in Hnode; lia].
  pose proof (name_at_node ref node Hnode) as Hname.
  destruct (name_in (node_name node) visited) eqn:Hnew.
  - (* the node was visited before: it is dropped *)
    destruct (IH visited found stack) as (order & Hrun & Hno & Hord & Hhd & Hst & Hnb);
      [unfold dfs_measure in *; simpl in Hn; lia | assumption |].
    exists order. split; [assumption|]. repeat split; try assumption.
    + eapply Forall_impl; [|exact Hord].
      intros r (Hr & Hfresh & s & Hs & Hreach).
      repeat split; try assumption. exists s. split; [now right | assumption].
    + intros s rest [= <- <-] Hfresh. congruence.
    + constructor; [|assumption]. left. congruence.
  - (* the node is new: its blocks are collected, its neighbours pushed *)
    assert (Hnbs : Forall (fun m => m < List.length cave)%nat
                     (rev (neighbours node))).
    { apply Forall_forall. intros m Hm. apply (Hclosed ref).
      rewrite (neighbours_at_node ref node Hnode). now apply in_rev. }
    pose proof (push_unvisited_spec (node_name node :: visited) _ stack Hnbs)
      as Hpush.
    rewrite Hpush.
    set (pushed := rev (filter (unvisited cave (node_name node :: visited))
                          (rev (neighbours node)))) in *.
    assert (Hpushed : forall m, In m pushed <->
              In m (neighbours node) /\
              unvisited cave (node_name node :: visited) m = true).
    { intros m. unfold pushed. rewrite <- in_rev, filter_In, <- in_rev.
      reflexivity. }
    destruct (IH (node_name node :: visited) (found ++ node_blocks node)
                 (pushed ++ stack))
      as (order & Hrun & Hno & Hord & Hhd & Hst & Hnb).
    { apply push_unvisited_length in Hpush. rewrite length_rev in Hpush.
      pose proof (unvisited_weight_visit cave visited ref node Hnode Hnew).
      unfold dfs_measure in *. simpl in Hn. lia. }
    { apply Forall_app. split; [|assumption].
      apply Forall_forall. intros m Hm. apply Hpushed in Hm.
      apply (Hclosed ref). rewrite (neighbours_at_node ref node Hnode).
      apply Hm. }
    exists (ref :: order). split.
    { rewrite Hrun. simpl. rewrite (blocks_at_node ref node Hnode).
      now rewrite <- app_assoc. }
    apply Forall_app in Hst. destruct Hst as [Hst_pushed Hst_stack].
    rewrite <- Hname in *.
    repeat split.
    + simpl. constructor; [|assumption].
      intros Hin. apply in_map_iff in Hin. destruct Hin as (r & Heq & Hr).
      rewrite Forall_forall in Hord. destruct (Hord r Hr) as (_ & Hfresh & _).
      apply name_in_cons in Hfresh. destruct Hfresh as [Hne _]. congruence.
    + constructor.
      * repeat split; [assumption | congruence |].
        exists ref. split; [now left | now constructor].
      * eapply Forall_impl; [|exact Hord].
        intros r (Hr & Hfresh & s & Hs & Hreach).
        apply name_in_cons in Hfresh. destruct Hfresh as [_ Hfresh].
        repeat split; try assumption.
        apply in_app_or in Hs. destruct Hs as [Hs | Hs].
        -- exists ref. split; [now left|].
           apply (reach_step cave ref s r); [|assumption].
           rewrite (neighbours_at_node ref node Hnode). now apply Hpushed.
        -- exists s. split; [now right | assumption].
    + intros s rest [= <- <-] _. reflexivity.
    + constructor; [right; now left|].
      eapply Forall_impl; [|exact Hst_stack]. intros m. apply seen_shift.
    + constructor.
      * rewrite (neighbours_at_node ref node Hnode).
        apply Forall_forall. intros m Hm. apply seen_shift.
        destruct (unvisited cave (name_at cave ref :: visited) m) eqn:Hun.
        -- rewrite Forall_forall in Hst_pushed. apply Hst_pushed.
           apply Hpushed. split; assumption.
        -- left. unfold unvisited in Hun. now apply negb_false_iff in Hun.
      * eapply Forall_impl; [|exact Hnb]. intros r Hr.
        eapply Forall_impl; [|exact Hr]. intros m. apply seen_shift.
Qed.

End CaveFacts.

Section CaveTheorems.
Context {K : Type}.

Lemma seen_nil (cave : list CaveNode) (order : list nat) (m : nat) :
  seen cave [] order m -> In (name_at cave m) (map (name_at cave) order).
Proof. intros [Hin | Hin]; [discriminate | assumption]. Qed.

(** With distinct names, a list of collected nodes that holds the name
    of every neighbour of its nodes holds every node reached from them. *)
Lemma reach_closed (cave : list CaveNode) (order : list nat) :
  cave_closed cave -> unique_names cave ->
  Forall (fun r => (r < List.length cave)%nat) order ->
  Forall (fun r => Forall (seen cave [] order) (neighbours_at cave r)) order ->
  forall a c, reach cave a c -> In a order -> In c order.
Proof.
  intros Hclosed Huniq Hvalid Hnb a c Hreach.
  induction Hreach as [a Ha | a b c Hb Hreach IH]; intros Hin; [assumption|].
  apply IH. rewrite Forall_forall in Hnb, Hvalid.
  pose proof (Hnb a Hin) as Hseen. rewrite Forall_forall in Hseen.
  pose proof (seen_nil _ _ _ (Hseen b Hb)) as Hname.
  apply in_map_iff in Hname. destruct Hname as (r & Heq & Hr).
  assert (r = b) as <-; [|assumption].
  apply Huniq; [now apply Hvalid | now apply (Hclosed a) | assumption].
Qed.

(** On a cave whose references all point to nodes, [dfs_explore_cave]
    comes to an end without an error.  It returns the blocks of the nodes
    it visits, node after node; it visits the entrance first, no two nodes
    of one name, and only nodes that are reached from the entrance. *)
Theorem dfs_explore_cave_sound (self : NotMinecraft K CaveSystem) :
  cave_closed (cave_nodes (cave_system self)) ->
  (entrance (cave_system self)
   < List.length (cave_nodes (cave_system self)))%nat ->
  exists order,
    dfs_explore_cave self
    = Some (flat_map (blocks_at (cave_nodes (cave_system self))) order) /\
    hd_error order = Some (entrance (cave_system self)) /\
    NoDup (map (name_at (cave_nodes (cave_system self))) order) /\
    forall r, In r order ->
              reach (cave_nodes (cave_system self))
                    (entrance (cave_system self)) r.
Proof.
  intros Hclosed Hentrance. unfold dfs_explore_cave.
  destruct (dfs_loop_explores _ Hclosed _ [] [] [entrance (cave_system self)]
              (le_n _)) as (order & Hrun & Hno & Hord & Hhd & _ & _);
    [now repeat constructor|].
  exists order. split; [exact Hrun|]. split; [|split; [exact Hno|]].
  - now apply (Hhd _ []).
  - intros r Hr. rewrite Forall_forall in Hord.
    destruct (Hord r Hr) as (_ & _ & s & [<- | []] & Hreach). exact Hreach.
Qed.

(** When moreover the nodes of the cave have distinct names,
    [dfs_explore_cave] visits exactly the nodes that are reached from the
    entrance, each of them once: it returns the blocks of all of them and
    of no other node. *)
Theorem dfs_explore_cave_complete (self : NotMinecraft K CaveSystem) :
  cave_closed (cave_nodes (cave_system self)) ->
  unique_names (cave_nodes (cave_system self)) ->
  (entrance (cave_system self)
   < List.length (cave_nodes (cave_system self)))%nat ->
  exists order,
    dfs_explore_cave self
    = Some (flat_map (blocks_at (cave_nodes (cave_system self))) order) /\
    NoDup order /\
    forall r, In r order <->
              reach (cave_nodes (cave_system self))
                    (entrance (cave_system self)) r.
Proof.
  intros Hclosed Huniq Hentrance. unfold dfs_explore_cave.
  destruct (dfs_loop_explores _ Hclosed _ [] [] [entrance (cave_system self)]
              (le_n _)) as (order & Hrun & Hno & Hord & Hhd & _ & Hnb);
    [now repeat constructor|].
  exists order. split; [exact Hrun|]. split; [|split].
  - eapply NoDup_map_inv. exact Hno.
  - intros Hr. rewrite Forall_forall in Hord.
    destruct (Hord r Hr) as (_ & _ & s & [<- | []] & Hreach). exact Hreach.
  - intros Hreach.
    apply (reach_closed _ order Hclosed Huniq) with (a := entrance (cave_system self));
      try assumption.
    + eapply Forall_impl; [|exact Hord]. now intros x (Hx & _).
    + specialize (Hhd _ [] eq_refl eq_refl).
      destruct order as [|first order]; [discriminate|].
      injection Hhd as ->. now left.
Qed.

End CaveTheorems.

Lemma small_cave_closed : cave_closed (cave_nodes small_cave).
Proof.
  intros [|[|[|[|[|ref]]]]] m; simpl; intuition lia.
Qed.

Lemma small_cave_unique : unique_names (cave_nodes small_cave).
Proof.
  intros [|[|[|[|a]]]] [|[|[|[|b]]]] Ha Hb; simpl in *;
    try lia; try discriminate; reflexivity.
Qed.

(** The small cave: the walk ends and stays within reach of the entrance. *)
Lemma dfs_explore_cave_sound_small :
  exists order,
    dfs_explore_cave small_cave_game
    = Some (flat_map (blocks_at (cave_nodes small_cave)) order) /\
    hd_error order = Some 0%nat /\
    NoDup (map (name_at (cave_nodes small_cave)) order) /\
    forall r, In r order -> reach (cave_nodes small_cave) 0%nat r.
Proof.
  apply (dfs_explore_cave_sound small_cave_game).
  - exact small_cave_closed.
  - simpl. lia.
Defined.

(** The small cave: the nodes a, b and c are visited, the node d is not. *)
Lemma dfs_explore_cave_complete_small :
  exists order,
    dfs_explore_cave small_cave_game
    = Some (flat_map (blocks_at (cave_nodes small_cave)) order) /\
    NoDup order /\
    forall r, In r order <-> reach (cave_nodes small_cave) 0%nat r.
Proof.
  apply (dfs_explore_cave_complete small_cave_game).
  - exact small_cave_closed.
  - exact small_cave_unique.
  - simpl. lia.
Defined.

Example dfs_explore_cave_small_value :
  dfs_explore_cave small_cave_game = Some [iron; coal; diamond].
Proof. reflexivity. Qed.
